(** * veles.snapshotter: scheduling, acknowledgement gate, streaming codec
      adapter, export naming and import dispatch

    A shallow embedding of [src/veles/snapshotter.py].  Every definition
    below is a transcription of the Python function of the same name; the
    state of an object is an explicit record, calls into the operating
    system and into external libraries (the clock, the file system, the
    stream compressor, the pickler) are explicit inputs or explicit
    stores. *)

From Stdlib Require Import ZArith List Ascii String Bool Lia DecimalString.
From stdpp Require Import base gmap strings list.

Local Open Scope Z_scope.

(** ** SnapshotterBase: the tick entry point and the slave bookkeeping *)

Module Base.

(** What the environment answers during one call of [run]: the reading of
    [time.time()] used for [delta], the reading stored in [self.time] after
    the export, and whether the (overridable) [self.export()] returns
    normally or raises.  Clock readings are integers in the unit the
    [time_interval] is given in. *)
Record env : Type := Env {
  t_delta : Z;
  t_done : Z;
  export_ok : bool
}.

(** The attributes of a [SnapshotterBase] instance that [run] and the slave
    hooks read or write.  [is_slave], [gate_skip] and [gate_block] are
    inherited from [Unit]; [disable_snapshotting] is
    [root.common.disable_snapshotting].  [slaves] is the dict whose keys are
    the pending slave ids (every value is 1). *)
Record SnapshotterBase : Type := Mk {
  is_slave : bool;
  disable_snapshotting : bool;
  interval : Z;
  time_interval : Z;
  time : Z;
  _skipped_counter : Z;
  skip : bool;
  slaves : gmap string nat;
  gate_skip : bool;
  gate_block : bool
}.

Definition with_counter (s : SnapshotterBase) (c : Z) : SnapshotterBase :=
  Mk (is_slave s) (disable_snapshotting s) (interval s) (time_interval s)
     (time s) c (skip s) (slaves s) (gate_skip s) (gate_block s).

Definition with_time (s : SnapshotterBase) (t : Z) : SnapshotterBase :=
  Mk (is_slave s) (disable_snapshotting s) (interval s) (time_interval s)
     t (_skipped_counter s) (skip s) (slaves s) (gate_skip s) (gate_block s).

Definition with_skip (s : SnapshotterBase) (b : bool) : SnapshotterBase :=
  Mk (is_slave s) (disable_snapshotting s) (interval s) (time_interval s)
     (time s) (_skipped_counter s) b (slaves s) (gate_skip s) (gate_block s).

Definition with_slaves (s : SnapshotterBase) (m : gmap string nat)
  : SnapshotterBase :=
  Mk (is_slave s) (disable_snapshotting s) (interval s) (time_interval s)
     (time s) (_skipped_counter s) (skip s) m (gate_skip s) (gate_block s).

(** How one call of [run] ends. *)
Inductive run_result : Type :=
| NoExport       (* returned without calling [export] *)
| Exported       (* [export] was called and returned *)
| ExportRaised.  (* [export] was called and raised; [run] re-raises *)

Definition fired (r : run_result) : bool :=
  match r with NoExport => false | _ => true end.

(** [SnapshotterBase.run], lines 104-116. *)
Definition run (s : SnapshotterBase) (e : env) : SnapshotterBase * run_result :=
  if is_slave s || disable_snapshotting s then (s, NoExport)
  else
    let s1 := with_counter s (_skipped_counter s + 1) in
    if (_skipped_counter s1 <? interval s1) || skip s1 then (s1, NoExport)
    else
      let s2 := with_counter s1 0 in
      let delta := t_delta e - time s2 in
      if delta <? time_interval s2 then (s2, NoExport)
      else if export_ok e then (with_time s2 (t_done e), Exported)
      else (s2, ExportRaised).

(** [generate_data_for_slave], lines 123-124. *)
Definition generate_data_for_slave (s : SnapshotterBase) (id : string)
  : SnapshotterBase :=
  with_slaves s (<[id := 1%nat]> (slaves s)).

(** [_slave_ended], lines 135-142.  The argument is [None] for Python's
    [None] and [Some id] for a slave object with that id.  The second
    component lists the calls of [run] made, with their results. *)
Definition _slave_ended (s : SnapshotterBase) (slave : option string) (e : env)
  : SnapshotterBase * list run_result :=
  match slave with
  | None => (s, [])
  | Some id =>
    match slaves s !! id with
    | None => (s, [])
    | Some _ =>
      let s1 := with_slaves s (delete id (slaves s)) in
      if negb (negb (size (slaves s1) =? 0)%nat || gate_skip s1 || gate_block s1)
      then let '(s2, r) := run s1 e in (s2, [r])
      else (s1, [])
    end
  end.

(** [apply_data_from_slave], lines 132-133. *)
Definition apply_data_from_slave (s : SnapshotterBase) (slave : option string)
  (e : env) : SnapshotterBase * list run_result :=
  _slave_ended s slave e.

(** [drop_slave], lines 144-146. *)
Definition drop_slave (s : SnapshotterBase) (id : string) (e : env)
  : SnapshotterBase * list run_result :=
  match slaves s !! id with
  | Some _ => _slave_ended s (Some id) e
  | None => (s, [])
  end.

(** What can happen to a unit between two observations. *)
Inductive event : Type :=
| Tick (e : env)
| SetSkip (b : bool)
| Assigned (id : string)
| Completed (slave : option string) (e : env)
| Dropped (id : string) (e : env).

Definition step (s : SnapshotterBase) (ev : event)
  : SnapshotterBase * list run_result :=
  match ev with
  | Tick e => let '(s', r) := run s e in (s', [r])
  | SetSkip b => (with_skip s b, [])
  | Assigned id => (generate_data_for_slave s id, [])
  | Completed slave e => apply_data_from_slave s slave e
  | Dropped id e => drop_slave s id e
  end.

Fixpoint exec (s : SnapshotterBase) (evs : list event)
  : SnapshotterBase * list run_result :=
  match evs with
  | [] => (s, [])
  | ev :: rest =>
    let '(s1, out1) := step s ev in
    let '(s2, out2) := exec s1 rest in
    (s2, out1 ++ out2)
  end.

(** The id a completion or drop notification removes, and the environment
    of the call of [run] it may lead to. *)
Definition removed_id (ev : event) : option string :=
  match ev with
  | Completed (Some id) _ | Dropped id _ => Some id
  | _ => None
  end.

Definition env_of (ev : event) : option env :=
  match ev with
  | Tick e | Completed _ e | Dropped _ e => Some e
  | _ => None
  end.

Definition is_notification (ev : event) : bool :=
  match ev with
  | Completed _ _ | Dropped _ _ => true
  | _ => false
  end.

(** One delivered tick as an observer sees it: the unit before the call,
    the number of ticks delivered since [export] was last called (or since
    the observation started), the environment, how [run] ended, and the unit
    after the call. *)
Record obs : Type := Obs {
  before : SnapshotterBase;
  since : Z;
  at_env : env;
  res : run_result;
  after : SnapshotterBase
}.

(** Deliver ticks one after the other; each tick comes with the value the
    externally owned [skip] flag has when it is delivered. *)
Fixpoint ticks_trace (s : SnapshotterBase) (n : Z) (ticks : list (bool * env))
  : list obs :=
  match ticks with
  | [] => []
  | (b, e) :: rest =>
    let s0 := with_skip s b in
    let '(s1, r) := run s0 e in
    Obs s0 n e r s1 :: ticks_trace s1 (if fired r then 0 else n + 1) rest
  end.

(** The policy as the code applies it to one tick. *)
Definition code_guard (s : SnapshotterBase) (e : env) : Prop :=
  interval s <= _skipped_counter s + 1 /\ skip s = false /\
  time_interval s <= t_delta e - time s.

(** The policy over the number of ticks since the last fire. *)
Definition since_guard (o : obs) : Prop :=
  interval (before o) <= since o + 1 /\ skip (before o) = false /\
  time_interval (before o) <= t_delta (at_env o) - time (before o).

Definition policy_obs (o : obs) : Prop :=
  (fired (res o) = true <-> code_guard (before o) (at_env o)) /\
  (fired (res o) = true -> since_guard o) /\
  (res o = Exported ->
     _skipped_counter (after o) = 0 /\ time (after o) = t_done (at_env o)) /\
  (interval (before o) <= _skipped_counter (before o) + 1 ->
     skip (before o) = false -> _skipped_counter (after o) = 0) /\
  (~ (interval (before o) <= _skipped_counter (before o) + 1 /\
      skip (before o) = false) ->
     _skipped_counter (after o) = _skipped_counter (before o) + 1) /\
  (res o <> Exported -> time (after o) = time (before o)).

(** The policy as the specification words it: a fire exactly when the
    ticks since the last fire have reached the interval, the time window has
    passed and the skip flag is off. *)
Definition stated_obs (o : obs) : Prop :=
  fired (res o) = true <-> since_guard o.

(** Inputs for the examples: a master with empty slave table, and a tick
    at a given time with [skip] off and an [export] that returns. *)
Definition master (iv tiv : Z) : SnapshotterBase :=
  Mk false false iv tiv 0 0 false ∅ false false.

Definition at_time (t : Z) : bool * env := (false, Env t t true).

(** The unit after line 140, [del self.slaves[slave.id]]. *)
Definition without (s : SnapshotterBase) (id : string) : SnapshotterBase :=
  with_slaves s (delete id (slaves s)).

Definition abc : SnapshotterBase :=
  generate_data_for_slave
    (generate_data_for_slave
       (generate_data_for_slave (master 3 15) "A") "B") "C".

Definition abc_done : list event :=
  [Completed (Some "A"%string) (Env 1 1 true); Dropped "B" (Env 2 2 true);
   Completed (Some "C"%string) (Env 3 3 true)].

Definition only_c : SnapshotterBase :=
  generate_data_for_slave (master 3 15) "C".

Definition c_done : event := Completed (Some "C"%string) (Env 20 20 true).

Definition blocked (s : SnapshotterBase) : SnapshotterBase :=
  Mk (is_slave s) (disable_snapshotting s) (interval s) (time_interval s)
     (time s) (_skipped_counter s) (skip s) (slaves s) (gate_skip s) true.

End Base.

(** ** SnappyFile: the block-buffering adapter over the stream compressor *)

Module Snappy.

Local Open Scope nat_scope.

Abbreviation bytes := (list Byte.byte).

(** Python's slice assignment [buf[a:b] = v] on a bytearray, for
    [0 <= a]: both bounds are clamped to the length, an empty or reversed
    range inserts at [a], and the bytearray grows or shrinks when [v] is
    not as long as the range it replaces. *)
Definition slice_assign (buf : bytes) (a b : nat) (v : bytes) : bytes :=
  firstn a buf ++ v ++ skipn (Nat.max a b) buf.

(** The compressor and the underlying file are external.  The stream
    compressor turns every [compress(x)] into frames that the stream
    decompressor decodes back to [x], in the order they were written, and
    its [flush()] returns [None].  The file is therefore kept as the list of
    the chunks that were compressed and written to it. *)
Definition compress (x : bytes) : list bytes := [x].

Record SnappyFile : Type := MkFile {
  _file : list bytes;
  buffer : bytes;
  buffer_pos : nat
}.

(** [SnappyFile.__init__] in mode ["wb"]: [bytearray(buffer_size)] is
    [buffer_size] zero bytes. *)
Definition init (buffer_size : nat) : SnappyFile :=
  MkFile [] (repeat Byte.x00 buffer_size) 0.

Inductive exn : Type := ZeroDivisionError.

Inductive outcome (A : Type) : Type :=
| Ok (a : A)
| Raise (e : exn)
| OutOfFuel.
Arguments Ok {A} a.
Arguments Raise {A} e.
Arguments OutOfFuel {A}.

(** The [while] loop of [write], lines 175-184; it yields the adapter and
    the value of the local variable [data] when the loop is left (by its
    condition or by [break]). *)
Fixpoint write_loop (fuel : nat) (s : SnappyFile) (data : bytes)
  : outcome (SnappyFile * bytes) :=
  if length (buffer s) <? buffer_pos s + length data then
    match fuel with
    | O => OutOfFuel
    | S fuel' =>
      if (buffer_pos s =? 0) && (length (buffer s) <? length data) then
        if length (buffer s) =? 0 then Raise ZeroDivisionError
        else
          let size := (length data / length (buffer s)) * length (buffer s) in
          Ok (MkFile (_file s ++ compress (firstn size data))
                     (buffer s) (buffer_pos s), data)
      else
        let remainder := length (buffer s) - buffer_pos s in
        let buf := slice_assign (buffer s) (buffer_pos s) (length (buffer s))
                                (firstn remainder data) in
        write_loop fuel' (MkFile (_file s ++ compress buf) buf 0)
                   (skipn remainder data)
    end
  else Ok (s, data).

(** The two statements after the loop, lines 185-186. *)
Definition append_tail (s : SnappyFile) (data : bytes) : SnappyFile :=
  let pos := buffer_pos s + length data in
  MkFile (_file s) (slice_assign (buffer s) (pos - length data) pos data) pos.

(** [SnappyFile.write], lines 174-186.  The loop runs at most twice (see
    [write_loop_fuel] below). *)
Definition write (s : SnappyFile) (data : bytes) : outcome SnappyFile :=
  match write_loop 2 s data with
  | Ok (s', data') => Ok (append_tail s' data')
  | Raise e => Raise e
  | OutOfFuel => OutOfFuel
  end.

(** [SnappyFile.flush], lines 191-199. *)
Definition flush (s : SnappyFile) : SnappyFile :=
  if 0 <? buffer_pos s
  then MkFile (_file s ++ compress (firstn (buffer_pos s) (buffer s)))
              (buffer s) 0
  else s.

(** [SnappyFile.close], lines 201-203; the result is the closed file. *)
Definition close (s : SnappyFile) : list bytes := _file (flush s).

(** A sequence of [write] calls. *)
Fixpoint writes (s : SnappyFile) (ws : list bytes) : outcome SnappyFile :=
  match ws with
  | [] => Ok s
  | d :: rest =>
    match write s d with
    | Ok s' => writes s' rest
    | other => other
    end
  end.

(** What a reader gets back from the closed file by calling [read()] until
    the source is exhausted: the decompressor returns the chunks in the
    order in which they were compressed. *)
Definition read_all (f : list bytes) : bytes := concat f.

(** Open with [buffer_size], perform the writes, close, read back. *)
Definition roundtrip (buffer_size : nat) (ws : list bytes) : outcome bytes :=
  match writes (init buffer_size) ws with
  | Ok s => Ok (read_all (close s))
  | Raise e => Raise e
  | OutOfFuel => OutOfFuel
  end.

(** The bytes the adapter holds back, and everything it has been given so
    far as a reader of the closed file would see it. *)
Definition pending (s : SnappyFile) : bytes :=
  firstn (buffer_pos s) (buffer s).

Definition written (s : SnappyFile) : bytes :=
  read_all (_file s) ++ pending s.

Definition seven : bytes :=
  [Byte.x01; Byte.x02; Byte.x03; Byte.x04; Byte.x05; Byte.x06; Byte.x07].

End Snappy.

(** ** The string and path functions of the Python library that [export]
       and [import_] call *)

Module Path.

(** [str.isspace] on the code points below 256. *)
Definition isspace (c : ascii) : bool :=
  let n := nat_of_ascii c in
  ((9 <=? n) && (n <=? 13) || (28 <=? n) && (n <=? 32)
   || (n =? 133) || (n =? 160))%nat.

Fixpoint lstrip (l : list ascii) : list ascii :=
  match l with
  | c :: r => if isspace c then lstrip r else l
  | [] => []
  end.

Definition rstrip (l : list ascii) : list ascii := rev (lstrip (rev l)).

(** [str.strip()]. *)
Definition strip (p : string) : string :=
  string_of_list_ascii (rstrip (lstrip (list_ascii_of_string p))).

(** [str.rfind(c)] for a one-character [c]: the highest index of [c], or
    -1.  [i] is the index of the head of [l]. *)
Fixpoint rfind_from (c : ascii) (i : Z) (l : list ascii) (found : Z) : Z :=
  match l with
  | [] => found
  | x :: r => rfind_from c (i + 1) r (if Ascii.eqb x c then i else found)
  end.

Definition rfind (c : ascii) (l : list ascii) : Z := rfind_from c 0 l (-1).

Definition is_dot (c : ascii) : bool := Ascii.eqb c ".".
Definition is_sep (c : ascii) : bool := Ascii.eqb c "/".

(** [posixpath.splitext] ([genericpath._splitext] with [sep = "/"], no
    [altsep], [extsep = "."]): the extension starts at the last dot of the
    last component, unless that component has only dots before it. *)
Definition splitext_chars (p : list ascii) : list ascii * list ascii :=
  let sepIndex := rfind "/" p in
  let dotIndex := rfind "." p in
  if sepIndex <? dotIndex then
    let filenameIndex := sepIndex + 1 in
    let leading := firstn (Z.to_nat (dotIndex - filenameIndex))
                          (skipn (Z.to_nat filenameIndex) p) in
    if forallb is_dot leading then (p, [])
    else (firstn (Z.to_nat dotIndex) p, skipn (Z.to_nat dotIndex) p)
  else (p, []).

Definition splitext (p : string) : string * string :=
  let '(root, ext) := splitext_chars (list_ascii_of_string p) in
  (string_of_list_ascii root, string_of_list_ascii ext).

Definition startswith_sep (p : string) : bool :=
  match p with String c _ => is_sep c | EmptyString => false end.

Definition endswith_sep (p : string) : bool :=
  match rev (list_ascii_of_string p) with c :: _ => is_sep c | [] => false end.

(** [posixpath.join(a, b)]. *)
Definition join (a b : string) : string :=
  if startswith_sep b then b
  else if (String.length a =? 0)%nat || endswith_sep a then a +:+ b
  else a +:+ "/" +:+ b.

Fixpoint lstrip_sep (l : list ascii) : list ascii :=
  match l with
  | c :: r => if is_sep c then lstrip_sep r else l
  | [] => []
  end.

(** [posixpath.dirname]: everything up to the last slash, without trailing
    slashes unless it consists of slashes only. *)
Definition dirname (p : string) : string :=
  let l := list_ascii_of_string p in
  let head := firstn (Z.to_nat (rfind "/" l + 1)) l in
  if forallb is_sep head then string_of_list_ascii head
  else string_of_list_ascii (rev (lstrip_sep (rev head))).

(** ["%d" % n]. *)
Definition fmt_d (n : Z) : string := NilZero.string_of_int (Z.to_int n).

End Path.

(** ** Snapshotter: the codec tables, [export] and [import_] *)

Module Snap.

Import Path.
Local Open Scope string_scope.

(** The stream classes the codec tables construct. *)
Inductive stream : Type := RawFile | SnappyStream | GzipFile | BZ2File | LZMAFile.

#[global] Instance stream_eq_dec : EqDecision stream.
Proof. solve_decision. Defined.

(** The exceptions that leave [export] and [import_].  What a reader or
    the unpickler raises on data that is not a complete pickle behind the
    matching codec ([EOFError], [BadGzipFile], [LZMAError],
    [UnpicklingError], ...) depends on the reader and on the bytes; the
    model keeps one [LoadError] for all of them and records only whether
    the class is a subclass of [OSError]. *)
Inductive exn : Type :=
| FileNotFoundError (p : string)
| KeyError (k : option string)
| TypeError
| OSError
| ImportError
| LoadError (os : bool)
| PicklingError.

(** What a regular file holds: a complete pickle of a workflow; a complete
    pickle that refers to modules the importing process does not have; the
    remains of a write that did not finish; the bytes of a pickle of which
    some were stored twice; or a complete pickle whose loading raises some
    exception in the importing process. *)
Inductive body : Type :=
| Pickled (w : nat)
| Foreign
| Truncated
| Garbled
| Unloadable (e : exn).

Inductive node : Type :=
| File (k : stream) (b : body)
| Symlink (target : string).

(** The file system is a finite map from path strings to entries.  It
    stands for a POSIX file system in which names are compared byte for
    byte, and it is an image of one only when every key is the resolved
    spelling of its entry ([wf_world] below): absolute, without [//], [.]
    or [..], and with no symbolic link among its directories.  Directories
    themselves are not entries; a missing directory shows as a failing
    open. *)

(** The calls with an effect that reach the operating system. *)
Inductive oscall : Type :=
| OpenRead (k : stream) (p : string)
| OpenWrite (k : stream) (p : string)
| Remove (p : string)
| MakeSymlink (target link : string).

Record world : Type := World {
  fs : gmap string node;
  log : list oscall
}.


Inductive result (A : Type) : Type :=
| Ok (a : A)
| Raise (e : exn).
Arguments Ok {A} a.
Arguments Raise {A} e.

(** Following symbolic links, at most 40 deep as the kernel does; a
    relative target is resolved against the directory of the link.  The
    result is the path of the entry reached, which may be missing. *)
Fixpoint follow (depth : nat) (m : gmap string node) (p : string)
  : option string :=
  match m !! p with
  | Some (Symlink t) =>
    match depth with
    | O => None
    | S d => follow d m (join (dirname p) t)
    end
  | _ => Some p
  end.

Definition MAXSYMLINKS : nat := 40.

(** [os.path.exists]. *)
Definition os_path_exists (m : gmap string node) (p : string) : bool :=
  match follow MAXSYMLINKS m p with
  | Some q => match m !! q with Some _ => true | None => false end
  | None => false
  end.

(** [WRITE_CODECS], lines 230-237: every entry takes [(n, l)]. *)
Definition WRITE_CODECS : gmap (option string) stream :=
  list_to_map [ (None, RawFile); (Some "", RawFile);
                (Some "snappy", SnappyStream); (Some "gz", GzipFile);
                (Some "bz2", BZ2File); (Some "xz", LZMAFile) ].

(** [READ_CODECS], lines 239-245: the number of parameters of each lambda
    and the stream it constructs. *)
Record reader : Type := Reader { arity : nat; makes : stream }.

Definition READ_CODECS : gmap string reader :=
  list_to_map [ (".pickle", Reader 1 RawFile);
                ("snappy", Reader 2 SnappyStream);
                (".gz", Reader 1 GzipFile);
                (".bz2", Reader 1 BZ2File);
                (".xz", Reader 1 LZMAFile) ].

(** What a reader of class [k] raises on a file written by another codec:
    [GzipFile] and [BZ2File] raise subclasses of [OSError], the others do
    not. *)
Definition mismatch_error (k : stream) : exn :=
  match k with
  | GzipFile | BZ2File => LoadError true
  | _ => LoadError false
  end.

(** [pickle.load] on a stream of class [k] over the file at [q]. *)
Definition pickle_load (m : gmap string node) (k : stream) (q : string)
  : result nat :=
  match m !! q with
  | Some (File k' b) =>
    if decide (k = k') then
      match b with
      | Pickled v => Ok v
      | Foreign => Raise ImportError
      | Truncated | Garbled => Raise (LoadError false)
      | Unloadable e => Raise e
      end
    else Raise (mismatch_error k)
  | _ => Raise OSError
  end.

(** [Snapshotter.import_], lines 273-287. *)
Definition import_ (w : world) (file_name : string) : world * result nat :=
  let file_name := strip file_name in
  if negb (os_path_exists (fs w) file_name)
  then (w, Raise (FileNotFoundError file_name))
  else
    let ext := snd (splitext file_name) in
    match READ_CODECS !! ext with
    | None => (w, Raise (KeyError (Some ext)))
    | Some codec =>
      if negb (arity codec =? 1)%nat then (w, Raise TypeError)
      else
        let w1 := World (fs w) (log w ++ [OpenRead (makes codec) file_name]) in
        match follow MAXSYMLINKS (fs w) file_name with
        | Some q => (w1, pickle_load (fs w) (makes codec) q)
        | None => (w1, Raise OSError)
        end
    end.

(** The attributes of a [Snapshotter] that [export] reads or writes. *)
Record Snapshotter : Type := MkSnap {
  directory : string;
  prefix : string;
  suffix : option string;
  compression : option string;
  compression_level : Z;
  file_name : string;
  workflow : nat
}.

Definition with_file_name (s : Snapshotter) (n : string) : Snapshotter :=
  MkSnap (directory s) (prefix s) (suffix s) (compression s)
         (compression_level s) n (workflow s).

(** What the operating system and the pickler do during one [export]:
    whether the open, the dump, the removal and the link creation fail,
    the exceptions a failing open and a failing dump raise, and the data of
    the successive [write] calls [pickle.dump] makes on the stream (their
    concatenation is the pickle of the workflow). *)
Record faults : Type := Faults {
  open_fails : bool;
  dump_fails : bool;
  remove_fails : bool;
  symlink_fails : bool;
  open_error : exn;
  dump_error : exn;
  dump_writes : list (list Byte.byte)
}.

(** [snappy._CHUNK_MAX], the default [buffer_size] of [SnappyFile]. *)
Definition _CHUNK_MAX : nat := Z.to_nat 65536.

Definition same_bytes (a b : list Byte.byte) : bool :=
  bool_decide (map Byte.to_bits a = map Byte.to_bits b).

(** What a completed dump leaves in the file.  Through [SnappyFile] (line
    233) it is what the adapter stores for these writes: the pickle when
    that is what a reader gets back, and bytes stored twice otherwise.  The
    other streams are the library's and store what they are given. *)
Definition stored (k : stream) (f : faults) (wf : nat) : body :=
  match k with
  | SnappyStream =>
    match Snappy.roundtrip _CHUNK_MAX (dump_writes f) with
    | Snappy.Ok b =>
      if same_bytes b (concat (dump_writes f)) then Pickled wf else Garbled
    | _ => Garbled
    end
  | _ => Pickled wf
  end.

(** ["%s" % x] for an attribute that is a string or [None]. *)
Definition fmt_s (x : option string) : string :=
  match x with Some v => v | None => "None" end.

(** [os.remove(p)] with [OSError] swallowed: it fails when there is nothing
    at [p] or when the system refuses. *)
Definition try_remove (f : faults) (w : world) (p : string) : world :=
  let w1 := World (fs w) (log w ++ [Remove p]) in
  match fs w !! p with
  | Some _ => if remove_fails f then w1 else World (delete p (fs w)) (log w1)
  | None => w1
  end.

(** [os.symlink(target, p)] with [OSError] swallowed: it fails when
    something is at [p] already or when the system refuses. *)
Definition try_symlink (f : faults) (w : world) (target p : string) : world :=
  let w1 := World (fs w) (log w ++ [MakeSymlink target p]) in
  match fs w !! p with
  | Some _ => w1
  | None =>
    if symlink_fails f then w1
    else World (<[p := Symlink target]> (fs w)) (log w1)
  end.

Section ExportCall.

(** [veles.pickle2.best_protocol]. *)
Variable best_protocol : Z.

(** The local [ext] of [export], line 248. *)
Definition ext_of (s : Snapshotter) : string :=
  match compression s with
  | Some (String c r) => "." +:+ String c r
  | _ => ""
  end.

(** The local [rel_file_name] of [export], lines 249-250. *)
Definition rel_file_name (s : Snapshotter) : string :=
  prefix s +:+ "_" +:+ fmt_s (suffix s) +:+ "." +:+ fmt_d best_protocol
    +:+ ".pickle" +:+ ext_of s.

(** The local [file_name_link] of [export], lines 255-257. *)
Definition file_name_link (s : Snapshotter) : string :=
  join (directory s)
       (prefix s +:+ "_current." +:+ fmt_d best_protocol +:+ ".pickle"
          +:+ ext_of s).

(** The [with] block of [export], lines 253-254, through [_open_file],
    lines 269-271: the table lookup, the open (which truncates) and the
    dump; the stream is closed on both ways out. *)
Definition write_payload (s : Snapshotter) (w : world) (f : faults)
  : world * result unit :=
  match WRITE_CODECS !! compression s with
  | None => (w, Raise (KeyError (compression s)))
  | Some k =>
    let w1 := World (fs w) (log w ++ [OpenWrite k (file_name s)]) in
    match follow MAXSYMLINKS (fs w) (file_name s) with
    | None => (w1, Raise OSError)
    | Some q =>
      if open_fails f then (w1, Raise (open_error f))
      else if dump_fails f
      then (World (<[q := File k Truncated]> (fs w)) (log w1),
            Raise (dump_error f))
      else (World (<[q := File k (stored k f (workflow s))]> (fs w))
                  (log w1),
            Ok tt)
    end
  end.

(** [Snapshotter.export], lines 247-267. *)
Definition export (s : Snapshotter) (w : world) (f : faults)
  : Snapshotter * world * result unit :=
  let s1 := with_file_name s (join (directory s) (rel_file_name s)) in
  match write_payload s1 w f with
  | (w1, Raise e) => (s1, w1, Raise e)
  | (w1, Ok _) =>
    let w2 := try_remove f w1 (file_name_link s1) in
    let w3 := try_symlink f w2 (rel_file_name s1) (file_name_link s1) in
    (s1, w3, Ok tt)
  end.

End ExportCall.

(** Inputs for the examples. *)
Definition no_faults : faults :=
  Faults false false false false OSError PicklingError [Snappy.seven].

Definition run_snapshotter (sfx codec : string) (w : nat) : Snapshotter :=
  MkSnap "/snap" "run" (Some sfx) (Some codec) 6 "" w.

Definition empty_world : world := World ∅ [].

(** The world after a first, undisturbed export with the given codec. *)
Definition after_epoch1 (codec : string) : world :=
  snd (fst (export 4 (run_snapshotter "epoch1" codec 7) empty_world
                   no_faults)).

Definition epoch2 : Snapshotter := run_snapshotter "epoch2" "gz" 8.

Definition epoch1_again : Snapshotter := run_snapshotter "epoch1" "gz" 8.

Definition current_link : string := "/snap/run_current.4.pickle.gz".

Definition link_fails : faults :=
  Faults false false false true OSError PicklingError [Snappy.seven].

Definition dump_breaks : faults :=
  Faults false true false false OSError PicklingError [Snappy.seven].

End Snap.

(** ** Further functions of the units, and observers of whole runs *)

Module More.

Import Base.

(** [SnapshotterBase.init_unpickled], lines 94-96 (the part after the call
    to the base class). *)
Definition init_unpickled (s : SnapshotterBase) : SnapshotterBase :=
  with_slaves s ∅.

(** [SnapshotterBase.initialize], lines 98-102, with the reading of
    [time.time()]. *)
Definition initialize (s : SnapshotterBase) (now : Z) : SnapshotterBase :=
  with_time s now.

(** The keyword arguments [SnapshotterBase.__init__] reads for the
    scheduler, lines 86-87; [None] is a missing keyword. *)
Record kwargs : Type := Kwargs {
  kw_interval : option Z;
  kw_time_interval : option Z
}.

(** [SnapshotterBase.__init__], lines 79-92, for the attributes of the
    scheduler; the role and the gates are set by the base class [Unit], and
    [slaves] by [init_unpickled]. *)
Definition __init__ (role disabled gskip gblock : bool) (kw : kwargs)
  : SnapshotterBase :=
  init_unpickled
    (Mk role disabled (default 1 (kw_interval kw))
        (default 15 (kw_time_interval kw)) 0 0 false ∅ gskip gblock).

(** The flags "export was called" along a trace. *)
Definition fires (tr : list obs) : list bool :=
  map (fun o => fired (res o)) tr.

(** The clock never runs backwards: every reading is at least [t] and
    the readings follow each other. *)
Fixpoint clock_ok (t : Z) (ticks : list (bool * env)) : Prop :=
  match ticks with
  | [] => True
  | (_, e) :: rest =>
    t <= t_delta e /\ t_delta e <= t_done e /\ clock_ok (t_done e) rest
  end.

(** The reading stored by the last export that returned, [t0] if none. *)
Fixpoint last_done (t0 : Z) (tr : list obs) : Z :=
  match tr with
  | [] => t0
  | o :: rest =>
    last_done (match res o with Exported => t_done (at_env o) | _ => t0 end)
              rest
  end.

(** The pending workers as a set, and what an event does to it. *)
Definition pending_after (P : gset string) (ev : event) : gset string :=
  match ev with
  | Assigned id => {[id]} ∪ P
  | Completed (Some id) _ | Dropped id _ => P ∖ {[id]}
  | _ => P
  end.

Definition is_tick (ev : event) : bool :=
  match ev with Tick _ => true | _ => false end.

End More.

(** ** Runs of the adapter with flushes in between *)

Module SnappyOps.

Import Snappy.

Inductive op : Type :=
| Write (data : bytes)
| Flush.

Definition data_of (o : op) : bytes :=
  match o with Write d => d | Flush => [] end.

Fixpoint run_ops (s : SnappyFile) (ops : list op) : outcome SnappyFile :=
  match ops with
  | [] => Ok s
  | Write d :: rest =>
    match write s d with
    | Ok s' => run_ops s' rest
    | other => other
    end
  | Flush :: rest => run_ops (flush s) rest
  end.

(** Open with [buffer_size], perform the operations, close, read back. *)
Definition session (buffer_size : nat) (ops : list op) : outcome bytes :=
  match run_ops (init buffer_size) ops with
  | Ok s => Ok (read_all (close s))
  | Raise e => Raise e
  | OutOfFuel => OutOfFuel
  end.

End SnappyOps.

(** ** The name of the alias *)

Module SnapMore.

Import Path Snap.
Local Open Scope string_scope.

(** The second argument of [os.path.join] at lines 256-257: the name of
    the alias inside the directory. *)
Definition link_name (ver : Z) (s : Snapshotter) : string :=
  prefix s +:+ "_current." +:+ fmt_d ver +:+ ".pickle" +:+ ext_of s.

(** A string without a slash: one name inside a directory. *)
Definition plain (p : string) : bool :=
  forallb (fun c => negb (is_sep c)) (list_ascii_of_string p).

(** The pieces of [l.split("/")]; [cur] holds the piece being read, in
    reverse. *)
Fixpoint split_sep (cur : list ascii) (l : list ascii) : list (list ascii) :=
  match l with
  | [] => [rev cur]
  | c :: r =>
    if is_sep c then rev cur :: split_sep [] r else split_sep (c :: cur) r
  end.

Definition ok_component (c : list ascii) : bool :=
  negb (bool_decide (c = []) || bool_decide (c = ["."%char])
        || bool_decide (c = ["."%char; "."%char])).

(** An absolute path in normal form: the root, or a slash followed by
    components separated by single slashes, none of them empty, [.] or
    [..]. *)
Definition canonical (p : string) : bool :=
  match list_ascii_of_string p with
  | c :: rest =>
    is_sep c
    && (bool_decide (rest = []) || forallb ok_component (split_sep [] rest))
  | [] => false
  end.

(** The directories above a path: its prefixes that end before a slash,
    the root apart. *)
Fixpoint ancestors_from (seen : list ascii) (l : list ascii) : list string :=
  match l with
  | [] => []
  | c :: r =>
    (if is_sep c && negb (bool_decide (seen = []))
     then [string_of_list_ascii (rev seen)] else [])
      ++ ancestors_from (c :: seen) r
  end.

Definition ancestors (p : string) : list string :=
  ancestors_from [] (list_ascii_of_string p).

Definition is_link (m : gmap string node) (p : string) : bool :=
  match m !! p with Some (Symlink _) => true | _ => false end.

(** A path that is the resolved spelling of what it names: in normal form
    and with no symbolic link among the directories above it. *)
Definition resolved (m : gmap string node) (p : string) : bool :=
  canonical p && forallb (fun a => negb (is_link m a)) (ancestors p).

Definition resolved_dir (m : gmap string node) (d : string) : bool :=
  resolved m d && negb (is_link m d).

(** A map that is the image of a file system: every entry is kept under
    its resolved spelling, so that two keys are two entries. *)
Definition wf_world (m : gmap string node) : bool :=
  forallb (resolved m) (map fst (map_to_list m)).

(** The snapshot and the alias are two different names in one resolved
    directory of a well-formed file system, and the snapshot is not written
    through a symbolic link. *)
Definition separate (ver : Z) (s : Snapshotter) (m : gmap string node) : Prop :=
  plain (prefix s) = true /\ plain (fmt_s (suffix s)) = true /\
  rel_file_name ver s <> link_name ver s /\
  resolved_dir m (directory s) = true /\ wf_world m = true /\
  (forall t, m !! join (directory s) (rel_file_name ver s)
             <> Some (Symlink t)).



(** Input for the examples: a dump that fails with [KeyError], as a
    pickling hook of the workflow can. *)
Definition hook_breaks : faults :=
  Faults false true false false OSError (KeyError None) [Snappy.seven].

End SnapMore.

(** * Properties *)

(** ** The scheduler *)

Section Scheduler.

Import Base.

Lemma run_keeps_role (s : SnapshotterBase) (e : env) :
  is_slave (fst (run s e)) = is_slave s /\
  disable_snapshotting (fst (run s e)) = disable_snapshotting s /\
  interval (fst (run s e)) = interval s /\
  time_interval (fst (run s e)) = time_interval s /\
  slaves (fst (run s e)) = slaves s.
Proof.
  unfold run.
  destruct (is_slave s || disable_snapshotting s); [tauto|].
  cbn [_skipped_counter interval skip with_counter time time_interval].
  destruct ((_skipped_counter s + 1 <? interval s) || skip s); [cbn; tauto|].
  destruct (t_delta e - time s <? time_interval s); [cbn; tauto|].
  destruct (export_ok e); cbn; tauto.
Qed.

Lemma run_policy (s : SnapshotterBase) (e : env) (n : Z) :
  is_slave s = false -> disable_snapshotting s = false ->
  _skipped_counter s <= n ->
  policy_obs (Obs s n e (snd (run s e)) (fst (run s e))).
Proof.
  intros Hs Hd Hn. unfold policy_obs, code_guard, since_guard, run.
  rewrite Hs, Hd. cbn [orb before since at_env res after].
  cbn [_skipped_counter interval skip with_counter time time_interval].
  destruct (Z.ltb_spec (_skipped_counter s + 1) (interval s)) as [Hc|Hc];
    cbn [orb].
  { cbn. repeat split; try discriminate; try lia; intros; try lia. }
  destruct (skip s) eqn:Hk; cbn [orb].
  { cbn. repeat split; try discriminate; try lia; intros; try lia;
      intuition congruence. }
  destruct (Z.ltb_spec (t_delta e - time s) (time_interval s)) as [Ht|Ht].
  { cbn. repeat split; try discriminate; try lia; intros; try lia;
      intuition (try congruence; try lia). }
  destruct (export_ok e); cbn;
    repeat split; try discriminate; try lia; intros; try lia;
    intuition (try congruence; try lia).
Qed.

(** C1, as amended.  On a master with snapshotting enabled, along every
    sequence of ticks: [export] is called on a tick exactly when the unit's
    own counter, incremented for this tick, has reached [interval], the
    [skip] flag is off and the time since the last snapshot is at least
    [time_interval]; whenever it is called the number of ticks since the
    last call has reached [interval] as well.  A call of [export] that
    returns leaves the counter at 0 and [time] at the reading taken after
    it.  The counter goes back to 0 on every tick that reaches [interval]
    with [skip] off, also when the time window then drops the export;
    otherwise it grows by one.  [time] changes on no other tick. *)
Theorem ticks_follow_policy (s : SnapshotterBase) (n : Z)
  (ticks : list (bool * env)) :
  is_slave s = false -> disable_snapshotting s = false ->
  0 <= n -> _skipped_counter s <= n ->
  Forall policy_obs (ticks_trace s n ticks).
Proof.
  revert s n. induction ticks as [|[b e] rest IH]; intros s n Hs Hd H0 Hn.
  { constructor. }
  cbn [ticks_trace].
  pose proof (run_policy (with_skip s b) e n Hs Hd Hn) as Hp.
  pose proof (run_keeps_role (with_skip s b) e) as (Kr & Kd & _).
  destruct (run (with_skip s b) e) as [s1 r] eqn:Hr.
  cbn [fst snd] in *.
  cbn [with_skip is_slave disable_snapshotting] in Kr, Kd.
  constructor; [exact Hp|].
  apply IH; [congruence | congruence | destruct (fired r); lia |].
  destruct Hp as (Hiff & _ & _ & Hreset & Hinc & _).
  cbn [before since at_env res after] in *.
  destruct (fired r) eqn:Hf.
  - destruct Hiff as [Hg _]. destruct (Hg eq_refl) as (Hi & Hk & _).
    rewrite (Hreset Hi Hk). lia.
  - destruct (Z_le_gt_dec (interval (with_skip s b))
                          (_skipped_counter (with_skip s b) + 1)) as [Hi|Hi];
      destruct (skip (with_skip s b)) eqn:Hk.
    + rewrite Hinc; [cbn in *; lia | intros [_ K]; discriminate].
    + rewrite (Hreset Hi eq_refl). lia.
    + rewrite Hinc; [cbn in *; lia | intros [K _]; lia].
    + rewrite Hinc; [cbn in *; lia | intros [K _]; lia].
Qed.

Lemma ticks_follow_policy_witness :
  (is_slave (master 2 15) = false /\
   disable_snapshotting (master 2 15) = false /\
   0 <= 0 /\ _skipped_counter (master 2 15) <= 0) /\
  Forall policy_obs
         (ticks_trace (master 2 15) 0 [at_time 10; at_time 10; at_time 20]).
Proof.
  split; [repeat split; cbn; lia|].
  apply (ticks_follow_policy (master 2 15) 0
           [at_time 10; at_time 10; at_time 20]);
    [reflexivity | reflexivity | lia | cbn; lia].
Defined.

(** C1 as stated fails.  With [interval = 2] and [time_interval = 15], two
    ticks at time 10 and one at time 20: the second tick reaches the
    interval inside the time window, the counter goes back to 0 although
    nothing was exported, and on the third tick, three ticks and 20 time
    units after the last snapshot with [skip] off, [export] is not called. *)
Lemma ticks_stated_policy_fails :
  ~ Forall stated_obs
      (ticks_trace (master 2 15) 0 [at_time 10; at_time 10; at_time 20]) /\
  Exists (fun o => fired (res o) = false /\
                   _skipped_counter (after o) <> since o + 1)
      (ticks_trace (master 2 15) 0 [at_time 10; at_time 10; at_time 20]).
Proof.
  split.
  - intros H. cbn in H.
    inversion_clear H as [|? ? _ H1]. inversion_clear H1 as [|? ? _ H2].
    inversion_clear H2 as [|? ? H3 _].
    destruct H3 as [_ H3]. cbn in H3.
    assert (false = true) as K
      by (apply H3; unfold since_guard; cbn; repeat split; lia).
    discriminate K.
  - cbn. apply Exists_cons_tl, Exists_cons_hd. cbn. split; [reflexivity|lia].
Qed.

End Scheduler.

(** ** The acknowledgement gate *)

Section Gate.

Import Base.

Lemma slave_ended_absent (s : SnapshotterBase) (id : string) (e : env) :
  slaves s !! id = None ->
  _slave_ended s (Some id) e = (s, []) /\ drop_slave s id e = (s, []).
Proof. intros H. unfold drop_slave, _slave_ended. rewrite H. auto. Qed.

Lemma notification_absent (s : SnapshotterBase) (ev : event) :
  is_notification ev = true ->
  (forall id, removed_id ev = Some id -> slaves s !! id = None) ->
  step s ev = (s, []).
Proof.
  destruct ev as [e|b|id|[id|] e|id e]; cbn; try discriminate; intros _ H.
  - unfold apply_data_from_slave. apply slave_ended_absent. auto.
  - reflexivity.
  - apply slave_ended_absent. auto.
Qed.

Lemma drop_is_slave_ended (s : SnapshotterBase) (id : string) (e : env) :
  drop_slave s id e = _slave_ended s (Some id) e.
Proof.
  unfold drop_slave. destruct (slaves s !! id) eqn:H; [reflexivity|].
  symmetry. apply slave_ended_absent. exact H.
Qed.

Lemma removal_step (s : SnapshotterBase) (ev : event) (id : string) :
  removed_id ev = Some id ->
  exists e, env_of ev = Some e /\ step s ev = _slave_ended s (Some id) e.
Proof.
  destruct ev as [e|b|i|[i|] e|i e]; cbn; try discriminate;
    intros [= ->]; exists e; split; try reflexivity.
  apply drop_is_slave_ended.
Qed.

Lemma slave_ended_not_last (s : SnapshotterBase) (id : string) (e : env) :
  is_Some (slaves s !! id) -> delete id (slaves s) <> ∅ ->
  _slave_ended s (Some id) e = (with_slaves s (delete id (slaves s)), []).
Proof.
  intros [v Hv] Hne. unfold _slave_ended. rewrite Hv.
  cbn [slaves with_slaves].
  destruct (Nat.eqb_spec (size (delete id (slaves s))) 0) as [K|K].
  - apply map_size_empty_iff in K. contradiction.
  - reflexivity.
Qed.

Lemma slave_ended_last (s : SnapshotterBase) (id : string) (e : env) :
  is_Some (slaves s !! id) -> delete id (slaves s) = ∅ ->
  gate_skip s = false -> gate_block s = false ->
  _slave_ended s (Some id) e =
    (fst (run (with_slaves s (delete id (slaves s))) e),
     [snd (run (with_slaves s (delete id (slaves s))) e)]).
Proof.
  intros [v Hv] He Hs Hb. unfold _slave_ended. rewrite Hv.
  cbn [slaves with_slaves gate_skip gate_block].
  rewrite He, Hs, Hb. rewrite map_size_empty. cbn.
  destruct (run _ e). reflexivity.
Qed.

Lemma slave_ended_gated (s : SnapshotterBase) (id : string) (e : env) :
  is_Some (slaves s !! id) -> gate_skip s || gate_block s = true ->
  _slave_ended s (Some id) e = (with_slaves s (delete id (slaves s)), []).
Proof.
  intros [v Hv] Hg. unfold _slave_ended. rewrite Hv.
  cbn [slaves with_slaves gate_skip gate_block].
  rewrite <- orb_assoc, Hg, orb_true_r. reflexivity.
Qed.

Lemma exec_cons (s : SnapshotterBase) (ev : event) (evs : list event) :
  exec s (ev :: evs) =
    (fst (exec (fst (step s ev)) evs),
     snd (step s ev) ++ snd (exec (fst (step s ev)) evs)).
Proof.
  cbn [exec]. destruct (step s ev) as [s1 o1]. cbn [fst snd].
  destruct (exec s1 evs). reflexivity.
Qed.

Lemma removals_fire_once (order : list string) :
  forall (evs : list event) (s : SnapshotterBase),
  NoDup order -> order <> [] ->
  (forall id, id ∈ order <-> is_Some (slaves s !! id)) ->
  map removed_id evs = map Some order ->
  gate_skip s = false -> gate_block s = false ->
  (forall k, (k < length evs)%nat -> snd (exec s (take k evs)) = []) /\
  exists r s', exec s evs = (s', [r]) /\ slaves s' = ∅.
Proof.
  induction order as [|id rest IH]; intros evs s Hnd Hne Hdom Hmap Hgs Hgb;
    [congruence|].
  destruct evs as [|ev evs']; [discriminate|].
  cbn [map] in Hmap. injection Hmap as Hev Hmap.
  destruct (removal_step s ev id Hev) as (e & _ & Hstep).
  apply NoDup_cons in Hnd as [Hnotin Hnd].
  assert (is_Some (slaves s !! id)) as Hin by (apply Hdom; left).
  destruct rest as [|id2 rest'].
  - destruct evs' as [|? ?]; [|discriminate].
    assert (delete id (slaves s) = ∅) as Hemp.
    { apply map_eq. intros i. rewrite lookup_empty.
      destruct (decide (i = id)) as [->|Hi]; [apply lookup_delete_eq|].
      rewrite lookup_delete_ne by congruence.
      apply eq_None_not_Some. intros K. apply Hdom in K.
      apply list_elem_of_singleton in K. contradiction. }
    split.
    + intros k Hk. cbn in Hk. assert (k = 0%nat) as -> by lia. reflexivity.
    + rewrite exec_cons, Hstep, (slave_ended_last s id e Hin Hemp Hgs Hgb).
      cbn [fst snd exec]. eexists _, _. split; [reflexivity|].
      destruct (run_keeps_role (with_slaves s (delete id (slaves s))) e)
        as (_ & _ & _ & _ & K).
      rewrite K. exact Hemp.
  - assert (id2 <> id) as Hid2.
    { intros ->. apply Hnotin. left. }
    assert (delete id (slaves s) <> ∅) as Hnemp.
    { intros K. assert (is_Some (slaves s !! id2)) as [v Hv].
      { apply Hdom. right. left. }
      assert (delete id (slaves s) !! id2 = Some v) as K2
        by (rewrite lookup_delete_ne by congruence; exact Hv).
      rewrite K, lookup_empty in K2. discriminate. }
    pose proof (slave_ended_not_last s id e Hin Hnemp) as Hse.
    destruct (IH evs' (with_slaves s (delete id (slaves s))) Hnd
                ltac:(discriminate)) as (Hquiet & r & s' & Hex & Hs');
      [ | exact Hmap | exact Hgs | exact Hgb | ].
    { intros i. cbn [slaves with_slaves]. split.
      - intros Hi. assert (i <> id) by (intros ->; contradiction).
        rewrite lookup_delete_ne by congruence. apply Hdom. right. exact Hi.
      - intros Hi. destruct (decide (i = id)) as [->|Hne2].
        + rewrite lookup_delete_eq in Hi. destruct Hi; discriminate.
        + rewrite lookup_delete_ne in Hi by congruence.
          apply Hdom in Hi. apply elem_of_cons in Hi as [?|?];
            [contradiction | assumption]. }
    split.
    + intros [|k] Hk; [reflexivity|].
      cbn [take]. rewrite exec_cons, Hstep, Hse. cbn [fst snd app].
      apply Hquiet. cbn in Hk. lia.
    + exists r, s'. rewrite exec_cons, Hstep, Hse. cbn [fst snd app].
      rewrite Hex. auto.
Qed.

(** C4, as amended.  Removing a pending worker, by completion or by drop,
    without emptying [slaves] calls [run] never; a notification for an id
    that is not pending changes nothing and calls nothing; with [gate_skip]
    or [gate_block] set no removal calls [run].  When neither
    [gate_skip] nor [gate_block] is set and the pending workers are removed
    one after the other in any order, no removal before the last calls
    [run], the last one calls it exactly once, and any notification that
    arrives afterwards (a duplicate of the last one included) changes
    nothing and calls nothing. *)
Theorem gate_fires_once (s : SnapshotterBase) (order : list string)
  (evs : list event) :
  NoDup order -> order <> [] ->
  (forall id, id ∈ order <-> is_Some (slaves s !! id)) ->
  map removed_id evs = map Some order ->
  gate_skip s = false -> gate_block s = false ->
  (forall s0 id e, is_Some (slaves s0 !! id) ->
     delete id (slaves s0) <> ∅ ->
     _slave_ended s0 (Some id) e = (without s0 id, []) /\
     drop_slave s0 id e = (without s0 id, [])) /\
  (forall s0 late, is_notification late = true ->
     (forall id, removed_id late = Some id -> slaves s0 !! id = None) ->
     step s0 late = (s0, [])) /\
  (forall s0 id e, is_Some (slaves s0 !! id) ->
     gate_skip s0 || gate_block s0 = true ->
     _slave_ended s0 (Some id) e = (without s0 id, []) /\
     drop_slave s0 id e = (without s0 id, [])) /\
  (forall k, (k < length evs)%nat -> snd (exec s (take k evs)) = []) /\
  exists r s', exec s evs = (s', [r]) /\ slaves s' = ∅ /\
    forall late, is_notification late = true -> step s' late = (s', []).
Proof.
  intros Hnd Hne Hdom Hmap Hgs Hgb.
  split; [|split; [|split]].
  - intros s0 id e Hin Hn. rewrite drop_is_slave_ended.
    split; apply slave_ended_not_last; assumption.
  - exact notification_absent.
  - intros s0 id e Hin Hg. rewrite drop_is_slave_ended.
    split; apply slave_ended_gated; assumption.
  - destruct (removals_fire_once order evs s Hnd Hne Hdom Hmap Hgs Hgb)
      as (Hq & r & s' & Hex & Hs').
    split; [exact Hq|]. exists r, s'. repeat split; try assumption.
    intros late Hl. apply notification_absent; [exact Hl|].
    intros id _. rewrite Hs'. apply lookup_empty.
Qed.

Lemma abc_pending (id : string) :
  id ∈ ["A"; "B"; "C"]%string <-> is_Some (slaves abc !! id).
Proof.
  unfold abc, generate_data_for_slave. cbn [slaves with_slaves master].
  rewrite !lookup_insert_is_Some', !elem_of_cons, elem_of_nil.
  pose proof (lookup_empty_is_Some (M := gmap string) (A := nat) id) as Hno.
  split.
  - intros [->|[->|[->|[]]]]; auto.
  - intros [<-|[<-|[<-|K]]]; auto.
Qed.

Lemma gate_fires_once_witness :
  (NoDup ["A"; "B"; "C"]%string /\ ["A"; "B"; "C"]%string <> [] /\
   map removed_id abc_done = map Some ["A"; "B"; "C"]%string /\
   gate_skip abc = false /\ gate_block abc = false) /\
  exists r s', exec abc abc_done = (s', [r]) /\ slaves s' = ∅ /\
    forall late, is_notification late = true -> step s' late = (s', []).
Proof.
  assert (NoDup ["A"; "B"; "C"]%string) as Hnd
    by (apply (bool_decide_unpack _); vm_compute; reflexivity).
  split; [repeat split; (exact Hnd || discriminate || reflexivity)|].
  apply (gate_fires_once abc ["A"; "B"; "C"]%string abc_done);
    [exact Hnd | discriminate | exact abc_pending
    | reflexivity | reflexivity | reflexivity].
Defined.

(** C4 as stated fails.  With [gate_block] set and "C" the only pending
    worker, the completion of "C" empties [slaves] and [run] is not
    called. *)
Lemma gate_blocked_no_fire :
  is_Some (slaves (blocked only_c) !! "C"%string) /\
  slaves (fst (_slave_ended (blocked only_c) (Some "C"%string)
                            (Env 20 20 true))) = ∅ /\
  ~ (exists r, snd (_slave_ended (blocked only_c) (Some "C"%string)
                                 (Env 20 20 true)) = [r]).
Proof.
  assert (is_Some (slaves (blocked only_c) !! "C"%string)) as Hin.
  { cbn. rewrite lookup_insert_is_Some. left. reflexivity. }
  rewrite (slave_ended_gated _ "C" (Env 20 20 true) Hin) by reflexivity.
  split; [exact Hin|]. cbn [fst snd slaves with_slaves]. split.
  - cbn. rewrite delete_insert_eq. apply delete_empty.
  - intros [r K]. discriminate K.
Qed.

(** C10.  The call made when the last pending worker is removed with the
    gates open is the tick entry point [run] on the unit without that
    worker: it does what a tick does.  On a slave or with snapshotting
    disabled it changes nothing; otherwise it increments the counter, which
    is afterwards one more than before, or 0 when the incremented counter
    has reached [interval] with [skip] off, and [export] is called exactly
    when the counter has reached [interval], [skip] is off and the time
    window has passed; [time] becomes the clock reading taken after an
    export that returns and is kept otherwise.  So an export that returns
    implies all of these, and emptying [slaves] implies none of them. *)
Theorem deferred_fire_is_run (s : SnapshotterBase) (ev : event) (id : string)
  (e : env) :
  removed_id ev = Some id -> env_of ev = Some e ->
  is_Some (slaves s !! id) -> delete id (slaves s) = ∅ ->
  gate_skip s = false -> gate_block s = false ->
  step s ev = step (without s id) (Tick e) /\
  step s ev = (fst (run (without s id) e), [snd (run (without s id) e)]) /\
  (is_slave s || disable_snapshotting s = true ->
     run (without s id) e = (without s id, NoExport)) /\
  (is_slave s || disable_snapshotting s = false ->
     (fired (snd (run (without s id) e)) = true
        <-> code_guard (without s id) e) /\
     _skipped_counter (fst (run (without s id) e))
       = (if (interval s <=? _skipped_counter s + 1) && negb (skip s)
          then 0 else _skipped_counter s + 1) /\
     time (fst (run (without s id) e))
       = (match snd (run (without s id) e) with
          | Exported => t_done e
          | _ => time s
          end)) /\
  (snd (run (without s id) e) = Exported ->
     is_slave s || disable_snapshotting s = false /\
     code_guard (without s id) e /\ export_ok e = true).
Proof.
  intros Hev He Hin Hemp Hgs Hgb.
  destruct (removal_step s ev id Hev) as (e' & He' & Hstep).
  assert (e' = e) as -> by congruence.
  pose proof (slave_ended_last s id e Hin Hemp Hgs Hgb) as Hl.
  fold (without s id) in Hl.
  assert (is_slave (without s id) = is_slave s) as Es by reflexivity.
  assert (disable_snapshotting (without s id) = disable_snapshotting s)
    as Ed by reflexivity.
  assert (_skipped_counter (without s id) = _skipped_counter s)
    as Ec by reflexivity.
  split; [|split; [|split; [|split]]].
  - rewrite Hstep, Hl. cbn [step]. destruct (run (without s id) e).
    reflexivity.
  - rewrite Hstep. exact Hl.
  - intros H. unfold run. rewrite Es, Ed, H. reflexivity.
  - intros H. apply orb_false_iff in H as [H1 H2].
    pose proof (run_policy (without s id) e (_skipped_counter s) H1 H2
                  ltac:(rewrite Ec; lia)) as Hp.
    destruct Hp as (Hiff & _ & _ & Hreset & Hinc & _).
    cbn [before since at_env res after] in *.
    split; [exact Hiff|]. split.
    + assert (interval (without s id) = interval s) as Ei by reflexivity.
      assert (skip (without s id) = skip s) as Ek by reflexivity.
      rewrite <- Ec, <- Ei, <- Ek.
      destruct (Z.leb_spec (interval (without s id))
                           (_skipped_counter (without s id) + 1)) as [Hi|Hi];
        destruct (skip (without s id)) eqn:Hk; cbn [andb negb].
      * apply Hinc. intros [_ K]. discriminate.
      * apply Hreset; [exact Hi | reflexivity].
      * apply Hinc. intros [K _]. lia.
      * apply Hinc. intros [K _]. lia.
    + unfold run. rewrite Es, Ed, H1, H2. cbn [orb].
      cbn [_skipped_counter interval skip with_counter time time_interval].
      destruct ((_skipped_counter (without s id) + 1 <? interval (without s id))
                || skip (without s id)); [reflexivity|].
      destruct (t_delta e - time (without s id) <? time_interval (without s id));
        [reflexivity|].
      destruct (export_ok e); reflexivity.
  - intros Hx. unfold run in Hx. rewrite Es, Ed in Hx.
    destruct (is_slave s || disable_snapshotting s) eqn:Hrole;
      [discriminate|].
    split; [reflexivity|].
    apply orb_false_iff in Hrole as [H1 H2].
    pose proof (run_policy (without s id) e (_skipped_counter s) H1 H2
                  ltac:(rewrite Ec; lia)) as (Hiff & _).
    cbn [before since at_env res after] in Hiff.
    assert (snd (run (without s id) e) = Exported) as Hx'.
    { unfold run. rewrite Es, Ed, H1, H2. exact Hx. }
    split; [apply Hiff; rewrite Hx'; reflexivity|].
    revert Hx. cbn [orb].
    destruct (_ || _); [discriminate|].
    destruct (_ <? _); [discriminate|].
    destruct (export_ok e); [reflexivity | discriminate].
Qed.

Lemma deferred_fire_is_run_witness :
  (removed_id c_done = Some "C"%string /\
   env_of c_done = Some (Env 20 20 true) /\
   is_Some (slaves only_c !! "C"%string) /\
   delete "C"%string (slaves only_c) = ∅ /\
   gate_skip only_c = false /\ gate_block only_c = false) /\
  step only_c c_done = step (without only_c "C") (Tick (Env 20 20 true)) /\
  snd (step only_c c_done) = [NoExport] /\
  _skipped_counter (fst (step only_c c_done)) = _skipped_counter only_c + 1.
Proof.
  assert (is_Some (slaves only_c !! "C"%string)) as Hin.
  { cbn. rewrite lookup_insert_is_Some. left. reflexivity. }
  assert (delete "C"%string (slaves only_c) = ∅)
    as Hemp by (cbn; rewrite delete_insert_eq; apply delete_empty).
  split; [repeat split; (exact Hin || exact Hemp || reflexivity)|].
  destruct (deferred_fire_is_run only_c c_done "C"
              (Env 20 20 true) eq_refl eq_refl Hin Hemp eq_refl eq_refl)
    as (H1 & H2 & _ & H4 & _).
  split; [exact H1|]. rewrite H2. split; [reflexivity|].
  cbn [fst]. exact (proj1 (proj2 (H4 eq_refl))).
Defined.

End Gate.

(** ** The streaming adapter *)

Section Adapter.

Import Snappy.
Local Open Scope nat_scope.

(** The loop of [write] is left after at most two rounds: a round that does
    not [break] leaves [buffer_pos = 0], and with [buffer_pos = 0] the loop
    condition is the condition of the branch that breaks. *)
Lemma write_loop_fuel (fuel : nat) (s : SnappyFile) (data : bytes) :
  write_loop (2 + fuel) s data = write_loop 2 s data.
Proof.
  cbn [Nat.add write_loop].
  destruct (length (buffer s) <? buffer_pos s + length data); [|reflexivity].
  destruct ((buffer_pos s =? 0) && (length (buffer s) <? length data));
    [reflexivity|].
  cbn [buffer buffer_pos _file Nat.add Nat.eqb andb].
  destruct (length _ <? length _) eqn:K; [|reflexivity].
  destruct fuel; reflexivity.
Qed.

Lemma write_terminates (s : SnappyFile) (data : bytes) :
  write s data <> OutOfFuel.
Proof.
  unfold write. cbn [write_loop].
  destruct (length (buffer s) <? buffer_pos s + length data); [|discriminate].
  destruct ((buffer_pos s =? 0) && (length (buffer s) <? length data)).
  { destruct (length (buffer s) =? 0); discriminate. }
  cbn [buffer buffer_pos _file Nat.add Nat.eqb andb].
  destruct (length _ <? length _) eqn:K; [|discriminate].
  destruct (length _ =? 0); discriminate.
Qed.

Lemma read_close_written (s : SnappyFile) :
  read_all (close s) = written s.
Proof.
  unfold close, flush, written, pending, read_all, compress.
  destruct (Nat.ltb_spec 0 (buffer_pos s)) as [H|H]; cbn [_file].
  - rewrite concat_app. cbn. rewrite app_nil_r. reflexivity.
  - assert (buffer_pos s = 0) as -> by lia. cbn. rewrite app_nil_r.
    reflexivity.
Qed.

(** A write that is no longer than the buffer keeps the buffer at its
    size, keeps [buffer_pos] inside it, and adds exactly its bytes. *)
Lemma write_small (s : SnappyFile) (data : bytes) :
  buffer_pos s <= length (buffer s) ->
  length data <= length (buffer s) ->
  exists s', write s data = Ok s' /\
    length (buffer s') = length (buffer s) /\
    buffer_pos s' <= length (buffer s') /\
    written s' = written s ++ data.
Proof.
  destruct s as [f buf pos]. cbn [buffer buffer_pos]. intros Hwf Hd.
  unfold write. cbn [write_loop buffer buffer_pos _file].
  destruct (Nat.ltb_spec (length buf) (pos + length data)) as [Hov|Hfit].
  - assert ((length buf <? length data) = false) as ->
      by (apply Nat.ltb_ge; lia).
    rewrite andb_false_r.
    set (buf1 := slice_assign buf pos (length buf)
                              (firstn (length buf - pos) data)).
    assert (length buf1 = length buf) as Hl1.
    { unfold buf1, slice_assign.
      rewrite !length_app, !length_firstn, !length_skipn. lia. }
    assert ((length buf1 <? 0 + length (skipn (length buf - pos) data))
            = false) as ->.
    { apply Nat.ltb_ge. rewrite length_skipn. lia. }
    eexists. split; [reflexivity|].
    unfold append_tail, written, pending, read_all, slice_assign, compress.
    cbn [buffer buffer_pos _file Nat.add]. repeat split.
    + rewrite !length_app, !length_firstn, !length_skipn. lia.
    + rewrite !length_app, !length_firstn, !length_skipn. lia.
    + rewrite Nat.sub_diag, firstn_O. cbn [app].
      rewrite take_app_length.
      rewrite concat_app. cbn [concat]. rewrite app_nil_r.
      unfold buf1, slice_assign.
      rewrite Nat.max_r by lia. rewrite skipn_all, app_nil_r.
      rewrite <- !app_assoc. rewrite (firstn_skipn (length buf - pos) data).
      reflexivity.
  - eexists. split; [reflexivity|].
    unfold append_tail, written, pending, read_all, slice_assign.
    cbn [buffer buffer_pos _file].
    replace (pos + length data - length data) with pos by lia.
    rewrite Nat.max_r by lia. repeat split.
    + rewrite !length_app, !length_firstn, !length_skipn. lia.
    + rewrite !length_app, !length_firstn, !length_skipn. lia.
    + rewrite app_assoc. rewrite firstn_app.
      rewrite !length_app, !length_firstn.
      replace (pos + length data - (Nat.min pos (length buf) + length data))
        with 0 by lia.
      cbn [firstn]. rewrite app_nil_r.
      rewrite firstn_all2
        by (rewrite !length_app, !length_firstn; lia).
      rewrite <- app_assoc. reflexivity.
Qed.



(** The branch that breaks, lines 176-179: with an empty buffer and data
    longer than the buffer, the whole chunks are compressed from [data],
    and [data] itself is left as it was, so all of it is put into the
    buffer by lines 185-186. *)
Lemma write_large (s : SnappyFile) (data : bytes) :
  buffer_pos s = 0 -> 0 < length (buffer s) ->
  length (buffer s) < length data ->
  write s data =
    Ok (MkFile
          (_file s ++
             [firstn (length data / length (buffer s) * length (buffer s))
                     data])
          data (length data)).
Proof.
  destruct s as [f buf pos]. cbn [buffer buffer_pos _file].
  intros -> Hcap Hlen. unfold write. cbn [write_loop buffer buffer_pos _file].
  cbn [Nat.add Nat.eqb andb].
  assert ((length buf <? length data) = true) as -> by (apply Nat.ltb_lt; lia).
  assert ((length buf =? 0) = false) as -> by (apply Nat.eqb_neq; lia).
  unfold append_tail, slice_assign, compress.
  cbn [buffer buffer_pos _file Nat.add].
  rewrite Nat.sub_diag, firstn_O. cbn [app].
  rewrite skipn_all2 by lia. rewrite app_nil_r. reflexivity.
Qed.

Lemma whole_chunks_bounds (cap n : nat) :
  0 < cap -> cap < n -> cap <= n / cap * cap <= n.
Proof.
  intros Hc Hn. split.
  - assert (1 <= n / cap) by (apply Nat.div_le_lower_bound; lia). nia.
  - rewrite Nat.mul_comm. apply Nat.Div0.mul_div_le.
Qed.

(** C2 fails on the code.  A payload longer than the buffer, written
    in one call to a freshly opened adapter and closed, is read back as its
    whole chunks followed by the complete payload again: the leading
    [len(P) // capacity] chunks are stored twice, so what is read back is
    not [P].  A payload of 3.5 times the capacity is such a payload. *)
Theorem roundtrip_large_write_repeats (cap : nat) (P : bytes) :
  0 < cap -> cap < length P ->
  roundtrip cap [P] = Ok (firstn (length P / cap * cap) P ++ P) /\
  firstn (length P / cap * cap) P ++ P <> P /\
  (2 * length P = 7 * cap ->
     roundtrip cap [P] = Ok (firstn (3 * cap) P ++ P)).
Proof.
  intros Hcap Hlen.
  assert (roundtrip cap [P] = Ok (firstn (length P / cap * cap) P ++ P)) as Hr.
  { unfold roundtrip. cbn [writes].
    rewrite write_large; cbn [init buffer buffer_pos _file];
      rewrite ?repeat_length; try lia.
    rewrite read_close_written. unfold written, pending, read_all.
    cbn [buffer buffer_pos _file app concat].
    rewrite firstn_all, app_nil_r. reflexivity. }
  pose proof (whole_chunks_bounds cap (length P) Hcap Hlen) as Hb.
  split; [exact Hr|]. split.
  - intros K. apply (f_equal (@length _)) in K.
    rewrite length_app, length_firstn in K. lia.
  - intros H7. rewrite Hr.
    assert (length P / cap = 3) as ->; [|reflexivity].
    symmetry. apply (Nat.div_unique _ _ 3 (length P - 3 * cap)); lia.
Qed.

Lemma roundtrip_large_write_repeats_witness :
  (0 < 2 /\ 2 < length seven) /\
  roundtrip 2 [seven] =
    Ok ([Byte.x01; Byte.x02; Byte.x03; Byte.x04; Byte.x05; Byte.x06]
          ++ seven) /\
  roundtrip 2 [seven] <> Ok seven.
Proof.
  split; [cbn; lia|].
  destruct (roundtrip_large_write_repeats 2 seven ltac:(lia)
              ltac:(cbn; lia)) as (H1 & H2 & H3).
  split; [exact H1|]. rewrite H1. intros K. apply H2. congruence.
Defined.

(** C3 fails on the code.  After a single write of data longer than
    the buffer to a freshly opened adapter, the whole chunks have been
    emitted, yet all of the data (not its tail) is buffered:
    [buffer_pos = len(data)] exceeds the capacity and the bytearray has
    grown to the length of the data. *)
Theorem write_large_exceeds_capacity (cap : nat) (data : bytes) :
  0 < cap -> cap < length data ->
  exists s, write (init cap) data = Ok s /\
    _file s = [firstn (length data / cap * cap) data] /\
    cap < buffer_pos s /\ buffer_pos s = length data /\
    cap < length (buffer s) /\
    pending s = data /\
    pending s <> skipn (length data / cap * cap) data.
Proof.
  intros Hcap Hlen. eexists. split.
  { rewrite write_large; cbn [init buffer buffer_pos _file];
      rewrite ?repeat_length; try lia. reflexivity. }
  pose proof (whole_chunks_bounds cap (length data) Hcap Hlen) as Hb.
  unfold pending. cbn [buffer buffer_pos _file app].
  rewrite firstn_all. repeat split; try lia.
  intros K. apply (f_equal (@length _)) in K.
  rewrite length_skipn in K. lia.
Qed.

Lemma write_large_exceeds_capacity_witness :
  (0 < 2 /\ 2 < length seven) /\
  exists s, write (init 2) seven = Ok s /\ buffer_pos s = 7 /\
    length (buffer s) = 7.
Proof.
  split; [cbn; lia|].
  destruct (write_large_exceeds_capacity 2 seven ltac:(lia)
              ltac:(cbn; lia)) as (s & Hw & _ & _ & Hp & _).
  exists s. split; [exact Hw|]. split; [exact Hp|].
  cbn in Hw. injection Hw as <-. reflexivity.
Defined.

End Adapter.

(** ** Paths *)

Section Paths.

Import Path.

Lemma lstrip_idem (l : list ascii) : lstrip (lstrip l) = lstrip l.
Proof.
  induction l as [|c r IH]; [reflexivity|]. cbn [lstrip].
  destruct (isspace c) eqn:K; [exact IH|]. cbn [lstrip]. rewrite K.
  reflexivity.
Qed.

Lemma lstrip_snoc (l : list ascii) (c : ascii) :
  isspace c = false -> lstrip (l ++ [c]) = lstrip l ++ [c].
Proof.
  intros K. induction l as [|x r IH]; cbn [lstrip app].
  - rewrite K. reflexivity.
  - destruct (isspace x); [exact IH | reflexivity].
Qed.

Lemma lstrip_head (l : list ascii) :
  lstrip l = [] \/ exists c r, lstrip l = c :: r /\ isspace c = false.
Proof.
  induction l as [|x r IH]; [left; reflexivity|]. cbn [lstrip].
  destruct (isspace x) eqn:K; [exact IH|]. right. eauto.
Qed.

Lemma lstrip_rstrip_lstrip (l : list ascii) :
  lstrip (rstrip (lstrip l)) = rstrip (lstrip l).
Proof.
  destruct (lstrip_head l) as [->|(c & r & -> & K)]; [reflexivity|].
  unfold rstrip. cbn [rev]. rewrite (lstrip_snoc _ _ K), rev_app_distr.
  cbn [rev app lstrip]. rewrite K. reflexivity.
Qed.

Lemma rstrip_idem (l : list ascii) : rstrip (rstrip l) = rstrip l.
Proof. unfold rstrip. rewrite rev_involutive, lstrip_idem. reflexivity. Qed.

Lemma strip_idem (p : string) : strip (strip p) = strip p.
Proof.
  unfold strip. rewrite list_ascii_of_string_of_list_ascii.
  rewrite lstrip_rstrip_lstrip, rstrip_idem. reflexivity.
Qed.

Lemma rfind_from_spec (c : ascii) (l : list ascii) :
  forall i found,
  rfind_from c i l found = found \/
  (i <= rfind_from c i l found /\
   exists r, skipn (Z.to_nat (rfind_from c i l found - i)) l = c :: r).
Proof.
  induction l as [|x r IH]; intros i found; cbn [rfind_from];
    [left; reflexivity|].
  destruct (IH (i + 1) (if Ascii.eqb x c then i else found))
    as [E|(Hle & t & Ht)].
  - rewrite E. destruct (Ascii.eqb_spec x c) as [->|_]; [|left; reflexivity].
    right. split; [lia|]. exists r. rewrite Z.sub_diag. reflexivity.
  - right. split; [lia|]. exists t. rewrite <- Ht.
    set (z := rfind_from c (i + 1) r _) in *.
    replace (Z.to_nat (z - i)) with (S (Z.to_nat (z - (i + 1)))) by lia.
    reflexivity.
Qed.

Lemma rfind_spec (c : ascii) (l : list ascii) :
  rfind c l = -1 \/
  (0 <= rfind c l /\ exists r, skipn (Z.to_nat (rfind c l)) l = c :: r).
Proof.
  unfold rfind. destruct (rfind_from_spec c l 0 (-1)) as [E|(H & r & Hr)];
    [left; exact E|].
  right. split; [exact H|]. exists r. rewrite Z.sub_0_r in Hr. exact Hr.
Qed.


End Paths.

(** ** The importer *)

Section Importer.

Import Path Snap.
Local Open Scope string_scope.

(** C9.  [import_] on a path and on the same path without its leading
    and trailing whitespace do the same: same result or error, same calls,
    same world. *)
Theorem import_strips_path (w : world) (p : string) :
  import_ w p = import_ w (strip p).
Proof. unfold import_. rewrite strip_idem. reflexivity. Qed.


Lemma READ_CODECS_dot_snappy : READ_CODECS !! ".snappy" = None.
Proof. vm_compute. reflexivity. Qed.




(** C6 fails on the code.  A path whose extension is [.snappy] and at
    which something exists is not imported: [READ_CODECS] has no key
    [".snappy"] (its adapter entry is keyed ["snappy"] and takes two
    arguments), so [import_] raises [KeyError] and constructs no reader. *)
Theorem import_snappy_raises (w : world) (p : string) :
  snd (splitext (strip p)) = ".snappy" ->
  os_path_exists (fs w) (strip p) = true ->
  import_ w p = (w, Raise (KeyError (Some ".snappy"))).
Proof.
  intros Hext Hex. unfold import_. rewrite Hex, Hext, READ_CODECS_dot_snappy.
  reflexivity.
Qed.

Lemma import_snappy_raises_witness :
  (snd (splitext (strip "/snap/run_epoch1.4.pickle.snappy")) = ".snappy" /\
   os_path_exists (fs (after_epoch1 "snappy"))
                  (strip "/snap/run_epoch1.4.pickle.snappy") = true) /\
  export 4 (run_snapshotter "epoch1" "snappy" 7) empty_world no_faults
    = (with_file_name (run_snapshotter "epoch1" "snappy" 7)
                      "/snap/run_epoch1.4.pickle.snappy",
       after_epoch1 "snappy", Ok tt) /\
  fs (after_epoch1 "snappy") !! "/snap/run_epoch1.4.pickle.snappy"
    = Some (File SnappyStream (Pickled 7)) /\
  import_ (after_epoch1 "snappy") "/snap/run_epoch1.4.pickle.snappy"
    = (after_epoch1 "snappy", Raise (KeyError (Some ".snappy"))).
Proof.
  split; [split; vm_compute; reflexivity|].
  split; [vm_compute; reflexivity|]. split; [vm_compute; reflexivity|].
  apply (import_snappy_raises (after_epoch1 "snappy")
           "/snap/run_epoch1.4.pickle.snappy"); vm_compute; reflexivity.
Defined.

End Importer.

(** ** The exporter *)

Section Exporter.

Import Path Snap.
Local Open Scope string_scope.

Variable ver : Z.

Lemma ext_of_cases (s : Snapshotter) (ext : string) :
  (compression s = None \/ compression s = Some "") /\ ext = "" \/
  (exists c, compression s = Some c /\ c <> "" /\ ext = "." +:+ c) ->
  ext_of s = ext.
Proof.
  unfold ext_of. intros [[[->| ->] ->]|(c & -> & Hc & ->)]; try reflexivity.
  destruct c; [contradiction | reflexivity].
Qed.

Lemma try_remove_log (f : faults) (w : world) (p : string) :
  log (try_remove f w p) = (log w ++ [Remove p])%list.
Proof.
  unfold try_remove. destruct (fs w !! p); [destruct (remove_fails f)|];
    reflexivity.
Qed.

Lemma try_symlink_log (f : faults) (w : world) (t p : string) :
  log (try_symlink f w t p) = (log w ++ [MakeSymlink t p])%list.
Proof.
  unfold try_symlink. destruct (fs w !! p); [|destruct (symlink_fails f)];
    reflexivity.
Qed.

Lemma alias_swap_elsewhere (f : faults) (w : world) (t link q : string) :
  q <> link ->
  fs (try_symlink f (try_remove f w link) t link) !! q = fs w !! q.
Proof.
  intros Hne. unfold try_symlink, try_remove.
  destruct (fs w !! link) eqn:Hl; [destruct (remove_fails f)|]; cbn [fs].
  - rewrite Hl. reflexivity.
  - rewrite lookup_delete_eq. destruct (symlink_fails f); cbn [fs].
    + apply lookup_delete_ne. congruence.
    + rewrite lookup_insert_ne by congruence. apply lookup_delete_ne.
      congruence.
  - rewrite Hl. destruct (symlink_fails f); cbn [fs]; [reflexivity|].
    apply lookup_insert_ne. congruence.
Qed.


Lemma write_payload_ok (s : Snapshotter) (w : world) (f : faults) :
  snd (write_payload s w f) = Ok tt ->
  exists k q, WRITE_CODECS !! compression s = Some k /\
    follow MAXSYMLINKS (fs w) (file_name s) = Some q /\
    fst (write_payload s w f)
      = World (<[q := File k (stored k f (workflow s))]> (fs w))
              (log w ++ [OpenWrite k (file_name s)]).
Proof.
  unfold write_payload. destruct (WRITE_CODECS !! compression s) as [k|];
    [|discriminate].
  destruct (follow _ _ _) as [q|]; [|discriminate].
  destruct (open_fails f); [discriminate|].
  destruct (dump_fails f); [discriminate|].
  intros _. exists k, q. auto.
Qed.

Lemma write_payload_raise (s : Snapshotter) (w : world) (f : faults)
  (e : exn) :
  snd (write_payload s w f) = Raise e ->
  fs (fst (write_payload s w f)) = fs w \/
  exists k q, follow MAXSYMLINKS (fs w) (file_name s) = Some q /\
    fs (fst (write_payload s w f)) = <[q := File k Truncated]> (fs w).
Proof.
  unfold write_payload. destruct (WRITE_CODECS !! compression s) as [k|];
    [|left; reflexivity].
  destruct (follow _ _ _) as [q|]; [|left; reflexivity].
  destruct (open_fails f); [left; reflexivity|].
  destruct (dump_fails f); [|discriminate].
  intros _. right. exists k, q. auto.
Qed.

(** C8.  With [ext] empty for compression [None] or [""] and a dot
    followed by the codec id otherwise, [export] names the snapshot
    [<prefix>_<suffix>.<protocol>.pickle<ext>] in the directory, and an
    export that returns has opened exactly that file for writing and then
    replaced the link [<prefix>_current.<protocol>.pickle<ext>] in the
    directory by one to the snapshot's name. *)
Theorem export_names (s : Snapshotter) (w : world) (f : faults)
  (sfx ext : string) :
  suffix s = Some sfx ->
  (compression s = None \/ compression s = Some "") /\ ext = "" \/
  (exists c, compression s = Some c /\ c <> "" /\ ext = "." +:+ c) ->
  let name := prefix s +:+ "_" +:+ sfx +:+ "." +:+ fmt_d ver
                +:+ ".pickle" +:+ ext in
  let link := join (directory s)
                   (prefix s +:+ "_current." +:+ fmt_d ver
                      +:+ ".pickle" +:+ ext) in
  file_name (fst (fst (export ver s w f))) = join (directory s) name /\
  (snd (export ver s w f) = Ok tt ->
     exists k, WRITE_CODECS !! compression s = Some k /\
       log (snd (fst (export ver s w f)))
         = (log w ++ [OpenWrite k (join (directory s) name); Remove link;
                      MakeSymlink name link])%list).
Proof.
  intros Hsfx Hext name link.
  assert (rel_file_name ver s = name) as Hname.
  { unfold rel_file_name, name. rewrite (ext_of_cases s ext Hext), Hsfx.
    reflexivity. }
  assert (file_name_link ver s = link) as Hlink.
  { unfold file_name_link, link. rewrite (ext_of_cases s ext Hext).
    reflexivity. }
  unfold export. rewrite Hname.
  set (s1 := with_file_name s (join (directory s) name)).
  assert (rel_file_name ver s1 = name) as Hname1 by exact Hname.
  assert (file_name_link ver s1 = link) as Hlink1 by exact Hlink.
  rewrite Hname1, Hlink1.
  destruct (write_payload s1 w f) as [w1 [[]|e]] eqn:Hwp; cbn [fst snd].
  - split; [reflexivity|]. intros _.
    destruct (write_payload_ok s1 w f) as (k & q & Hk & _ & Hw1);
      [rewrite Hwp; reflexivity|].
    rewrite Hwp in Hw1. cbn [fst] in Hw1. subst w1.
    exists k. split; [exact Hk|].
    rewrite try_symlink_log, try_remove_log. cbn [log].
    rewrite <- !app_assoc. reflexivity.
  - split; [reflexivity|]. discriminate.
Qed.

End Exporter.

Section ExporterExamples.

Import Path Snap.
Local Open Scope string_scope.

Lemma export_names_witness :
  (suffix (run_snapshotter "epoch1" "gz" 7) = Some "epoch1" /\
   exists c, compression (run_snapshotter "epoch1" "gz" 7) = Some c /\
             c <> "" /\ ".gz" = "." +:+ c) /\
  file_name (fst (fst (export 4 (run_snapshotter "epoch1" "gz" 7)
                              empty_world no_faults)))
    = "/snap/run_epoch1.4.pickle.gz" /\
  log (snd (fst (export 4 (run_snapshotter "epoch1" "gz" 7)
                        empty_world no_faults)))
    = [OpenWrite GzipFile "/snap/run_epoch1.4.pickle.gz";
       Remove "/snap/run_current.4.pickle.gz";
       MakeSymlink "run_epoch1.4.pickle.gz" "/snap/run_current.4.pickle.gz"].
Proof.
  assert (exists c, compression (run_snapshotter "epoch1" "gz" 7) = Some c /\
                    c <> "" /\ ".gz" = "." +:+ c) as Hc.
  { exists "gz". repeat split. discriminate. }
  split; [split; [reflexivity | exact Hc]|].
  destruct (export_names 4 (run_snapshotter "epoch1" "gz" 7) empty_world
              no_faults "epoch1" ".gz" eq_refl (or_intror Hc)) as [Hn Hl].
  split; [exact Hn|].
  destruct (Hl ltac:(vm_compute; reflexivity)) as (k & Hk & Hlog).
  rewrite Hlog. vm_compute in Hk. injection Hk as <-. reflexivity.
Defined.


(** An export under the name of the snapshot the alias points to, whose
    dump fails: the error reaches the caller, the alias is untouched, and
    the file it points to is now the truncated one. *)
Lemma export_rewrite_failure_truncates_alias_target :
  snd (export 4 epoch1_again (after_epoch1 "gz") dump_breaks)
    = Raise PicklingError /\
  fs (snd (fst (export 4 epoch1_again (after_epoch1 "gz") dump_breaks)))
    !! current_link
    = fs (after_epoch1 "gz") !! current_link /\
  fs (snd (fst (export 4 epoch1_again (after_epoch1 "gz") dump_breaks)))
    !! "/snap/run_epoch1.4.pickle.gz"
    = Some (File GzipFile Truncated) /\
  snd (import_ (snd (fst (export 4 epoch1_again (after_epoch1 "gz")
                                 dump_breaks))) current_link)
    = Raise (LoadError false).
Proof. repeat split; vm_compute; reflexivity. Qed.

End ExporterExamples.

(** ** More on the streaming adapter *)

Section AdapterMore.

Import Snappy SnappyOps.
Local Open Scope nat_scope.

Lemma flush_written (s : SnappyFile) :
  written (flush s) = written s /\
  buffer (flush s) = buffer s /\ buffer_pos (flush s) = 0.
Proof.
  unfold flush, written, pending, read_all, compress.
  destruct (Nat.ltb_spec 0 (buffer_pos s)) as [H|H]; cbn [_file buffer buffer_pos].
  - rewrite concat_app. cbn. rewrite !app_nil_r. auto.
  - assert (buffer_pos s = 0) as E by lia. rewrite E. auto.
Qed.

Lemma run_ops_small (ops : list op) :
  forall s : SnappyFile,
  buffer_pos s <= length (buffer s) ->
  Forall (fun o => length (data_of o) <= length (buffer s)) ops ->
  exists s', run_ops s ops = Ok s' /\
    length (buffer s') = length (buffer s) /\
    buffer_pos s' <= length (buffer s') /\
    written s' = written s ++ concat (map data_of ops).
Proof.
  induction ops as [|o rest IH]; intros s Hwf Hall.
  { exists s. cbn. rewrite app_nil_r. auto. }
  apply Forall_cons in Hall as [Ho Hrest].
  destruct o as [d|]; cbn [run_ops map concat data_of] in *.
  - destruct (write_small s d Hwf Ho) as (s1 & Hw & Hl & Hwf1 & Hc).
    destruct (IH s1 Hwf1) as (s2 & Hr & Hl2 & Hwf2 & Hc2).
    { rewrite Hl. exact Hrest. }
    exists s2. rewrite Hw. split; [exact Hr|]. split; [congruence|].
    split; [exact Hwf2|]. rewrite Hc2, Hc, <- app_assoc. reflexivity.
  - destruct (flush_written s) as (Hc & Hb & Hp).
    destruct (IH (flush s)) as (s2 & Hr & Hl2 & Hwf2 & Hc2).
    { rewrite Hp. lia. }
    { rewrite Hb. exact Hrest. }
    exists s2. split; [exact Hr|]. split; [congruence|].
    split; [exact Hwf2|]. rewrite Hc2, Hc. reflexivity.
Qed.

(** X1.  Whatever is written in pieces that each fit the buffer, with any
    number of flushes in between, is read back from the closed file
    unchanged: nothing is lost, repeated or reordered. *)
Theorem session_small_ops (cap : nat) (ops : list op) :
  Forall (fun o => length (data_of o) <= cap) ops ->
  session cap ops = Ok (concat (map data_of ops)).
Proof.
  intros Hall. unfold session.
  destruct (run_ops_small ops (init cap)) as (s & Hr & _ & _ & Hc).
  { cbn. lia. }
  { cbn [init buffer]. rewrite repeat_length. exact Hall. }
  rewrite Hr, read_close_written, Hc. reflexivity.
Qed.

Lemma session_small_ops_witness :
  Forall (fun o => length (data_of o) <= 4)
         [Write (firstn 3 seven); Flush; Write (skipn 3 seven); Write []] /\
  session 4 [Write (firstn 3 seven); Flush; Write (skipn 3 seven); Write []]
    = Ok seven.
Proof.
  assert (Forall (fun o => length (data_of o) <= 4)
            [Write (firstn 3 seven); Flush; Write (skipn 3 seven); Write []])
    as H by (repeat constructor; cbn; lia).
  split; [exact H|].
  exact (session_small_ops 4 _ H).
Defined.

(** X2.  While every write fits the buffer, the bytearray keeps the size
    it was created with and [buffer_pos] stays within it, whatever the
    sequence of writes and flushes. *)
Theorem small_ops_keep_capacity (cap : nat) (ops : list op) :
  Forall (fun o => length (data_of o) <= cap) ops ->
  exists s, run_ops (init cap) ops = Ok s /\
    length (buffer s) = cap /\ buffer_pos s <= cap.
Proof.
  intros Hall.
  destruct (run_ops_small ops (init cap)) as (s & Hr & Hl & Hp & _).
  { cbn. lia. }
  { cbn [init buffer]. rewrite repeat_length. exact Hall. }
  cbn [init buffer] in Hl. rewrite repeat_length in Hl.
  exists s. split; [exact Hr|]. split; [exact Hl|]. lia.
Qed.

Lemma small_ops_keep_capacity_witness :
  Forall (fun o => length (data_of o) <= 4)
         [Write (firstn 3 seven); Write (skipn 3 seven)] /\
  exists s, run_ops (init 4) [Write (firstn 3 seven); Write (skipn 3 seven)]
            = Ok s /\ length (buffer s) = 4 /\ buffer_pos s <= 4.
Proof.
  assert (Forall (fun o => length (data_of o) <= 4)
            [Write (firstn 3 seven); Write (skipn 3 seven)])
    as H by (repeat constructor; cbn; lia).
  split; [exact H|].
  exact (small_ops_keep_capacity 4 _ H).
Defined.

(** X3.  The loop of [write] ends after at most two rounds on every input:
    more rounds allowed change nothing, and two are always enough. *)
Theorem write_loop_two_rounds (fuel : nat) (s : SnappyFile) (data : bytes) :
  write_loop (2 + fuel) s data = write_loop 2 s data /\
  write_loop 2 s data <> OutOfFuel.
Proof.
  split; [apply write_loop_fuel|].
  cbn [write_loop].
  destruct (length (buffer s) <? buffer_pos s + length data); [|discriminate].
  destruct ((buffer_pos s =? 0) && (length (buffer s) <? length data)).
  { destruct (length (buffer s) =? 0); discriminate. }
  cbn [buffer buffer_pos _file Nat.add Nat.eqb andb].
  destruct (length _ <? length _) eqn:K; [|discriminate].
  destruct (length _ =? 0); discriminate.
Qed.

(** X4.  Writing no bytes changes nothing. *)
Theorem write_nothing (s : SnappyFile) :
  buffer_pos s <= length (buffer s) -> write s [] = Ok s.
Proof.
  destruct s as [f buf pos]. cbn [buffer buffer_pos]. intros Hwf.
  unfold write. cbn [write_loop buffer buffer_pos length].
  assert ((length buf <? pos + 0) = false) as -> by (apply Nat.ltb_ge; lia).
  unfold append_tail, slice_assign. cbn [buffer buffer_pos _file length app].
  rewrite Nat.add_0_r, Nat.sub_0_r, Nat.max_id, firstn_skipn. reflexivity.
Qed.

Lemma write_nothing_witness :
  buffer_pos (init 4) <= length (buffer (init 4)) /\
  write (init 4) [] = Ok (init 4).
Proof.
  split; [cbn; lia|]. apply (write_nothing (init 4)). cbn. lia.
Defined.

(** X5.  [flush] moves the buffered bytes to the file and keeps what a
    reader will see; a second [flush] (as in [close] after [flush]) writes
    nothing more. *)
Theorem flush_twice (s : SnappyFile) :
  flush (flush s) = flush s /\ buffer_pos (flush s) = 0 /\
  read_all (_file (flush s)) = written s /\
  close (flush s) = close s.
Proof.
  destruct (flush_written s) as (Hc & Hb & Hp).
  assert (flush (flush s) = flush s) as Hff.
  { unfold flush at 1. rewrite Hp. reflexivity. }
  split; [exact Hff|]. split; [exact Hp|]. split.
  - fold (close s). apply read_close_written.
  - unfold close. rewrite Hff. reflexivity.
Qed.

(** A write that overflows the buffer once: the buffer is filled and
    emitted, and the rest fits the emptied buffer. *)
Lemma write_drain_fits (s : SnappyFile) (data : bytes) :
  buffer_pos s <= length (buffer s) ->
  length (buffer s) < buffer_pos s + length data ->
  (buffer_pos s = 0 -> length data <= length (buffer s)) ->
  buffer_pos s + length data <= 2 * length (buffer s) ->
  exists s', write s data = Ok s' /\
    length (buffer s') = length (buffer s) /\
    buffer_pos s' <= length (buffer s') /\
    written s' = written s ++ data.
Proof.
  destruct s as [f buf pos]. cbn [buffer buffer_pos]. intros Hwf Hov Hz H2.
  unfold write. cbn [write_loop buffer buffer_pos _file].
  assert ((length buf <? pos + length data) = true) as ->
    by (apply Nat.ltb_lt; lia).
  assert (((pos =? 0) && (length buf <? length data)) = false) as ->.
  { destruct (Nat.eqb_spec pos 0) as [E|E]; [|reflexivity].
    cbn [andb]. apply Nat.ltb_ge. auto. }
  set (buf1 := slice_assign buf pos (length buf)
                            (firstn (length buf - pos) data)).
  assert (length buf1 = length buf) as Hl1.
  { unfold buf1, slice_assign.
    rewrite !length_app, !length_firstn, !length_skipn. lia. }
  assert ((length buf1 <? 0 + length (skipn (length buf - pos) data))
          = false) as ->.
  { apply Nat.ltb_ge. rewrite length_skipn. lia. }
  eexists. split; [reflexivity|].
  unfold append_tail, written, pending, read_all, slice_assign, compress.
  cbn [buffer buffer_pos _file Nat.add]. repeat split.
  - rewrite !length_app, !length_firstn, !length_skipn. lia.
  - rewrite !length_app, !length_firstn, !length_skipn. lia.
  - rewrite Nat.sub_diag, firstn_O. cbn [app].
    rewrite take_app_length.
    rewrite concat_app. cbn [concat]. rewrite app_nil_r.
    unfold buf1, slice_assign.
    rewrite Nat.max_r by lia. rewrite skipn_all, app_nil_r.
    rewrite <- !app_assoc. rewrite (firstn_skipn (length buf - pos) data).
    reflexivity.
Qed.

(** A write that overflows the buffer and leaves more than a buffer: the
    second round takes the branch that breaks. *)
Lemma write_drain_large (s : SnappyFile) (data : bytes) :
  buffer_pos s <= length (buffer s) -> 0 < buffer_pos s ->
  2 * length (buffer s) < buffer_pos s + length data ->
  write s data =
    Ok (MkFile
          ((_file s ++
              [firstn (buffer_pos s) (buffer s)
                 ++ firstn (length (buffer s) - buffer_pos s) data])
             ++ [firstn (length (skipn (length (buffer s) - buffer_pos s) data)
                          / length (buffer s) * length (buffer s))
                        (skipn (length (buffer s) - buffer_pos s) data)])
          (skipn (length (buffer s) - buffer_pos s) data)
          (length (skipn (length (buffer s) - buffer_pos s) data))).
Proof.
  destruct s as [f buf pos]. cbn [buffer buffer_pos _file]. intros Hwf Hp H2.
  unfold write. cbn [write_loop buffer buffer_pos _file].
  assert ((length buf <? pos + length data) = true) as ->
    by (apply Nat.ltb_lt; lia).
  assert ((pos =? 0) = false) as -> by (apply Nat.eqb_neq; lia).
  cbn [andb].
  assert (slice_assign buf pos (length buf) (firstn (length buf - pos) data)
          = firstn pos buf ++ firstn (length buf - pos) data) as ->.
  { unfold slice_assign. rewrite Nat.max_r by lia.
    rewrite skipn_all, app_nil_r. reflexivity. }
  set (buf1 := firstn pos buf ++ firstn (length buf - pos) data).
  set (d1 := skipn (length buf - pos) data).
  assert (length buf1 = length buf) as Hl1.
  { unfold buf1. rewrite !length_app, !length_firstn. lia. }
  assert (length buf < length d1) as Hd1.
  { unfold d1. rewrite length_skipn. lia. }
  cbn [Nat.add Nat.eqb andb]. rewrite Hl1.
  assert ((length buf <? length d1) = true) as -> by (apply Nat.ltb_lt; lia).
  assert ((length buf =? 0) = false) as -> by (apply Nat.eqb_neq; lia).
  unfold append_tail, slice_assign, compress.
  cbn [buffer buffer_pos _file Nat.add].
  rewrite Nat.sub_diag, firstn_O. cbn [app].
  rewrite skipn_all2 by lia. rewrite app_nil_r. reflexivity.
Qed.

(** X6.  Exactly which writes are stored correctly.  With a buffer of
    positive size, [write] adds precisely the given bytes to what a reader
    will see if and only if the data fits one buffer when the buffer is
    empty, and fits what is left of the buffer plus one more buffer when it
    is not; every other write stores some of its bytes twice. *)
Theorem write_correct_iff (s : SnappyFile) (data : bytes) :
  buffer_pos s <= length (buffer s) -> 0 < length (buffer s) ->
  (exists s', write s data = Ok s' /\ written s' = written s ++ data) <->
  (buffer_pos s = 0 -> length data <= length (buffer s)) /\
  buffer_pos s + length data <= 2 * length (buffer s).
Proof.
  intros Hwf Hcap. split.
  - intros (s' & Hw & Hc).
    apply (f_equal (@length _)) in Hc.
    destruct (Nat.eq_dec (buffer_pos s) 0) as [E|E].
    + destruct (Nat.le_gt_cases (length data) (length (buffer s)))
        as [Hle|Hgt]; [split; [auto | lia]|].
      exfalso. rewrite (write_large s data E Hcap Hgt) in Hw.
      injection Hw as <-.
      pose proof (whole_chunks_bounds _ _ Hcap Hgt) as Hb.
      unfold written, pending, read_all in Hc.
      cbn [_file buffer buffer_pos] in Hc.
      rewrite concat_app in Hc. cbn [concat] in Hc.
      rewrite E in Hc. cbn [firstn] in Hc.
      rewrite !length_app, !length_firstn in Hc. cbn [length] in Hc. lia.
    + split; [intros; contradiction|].
      destruct (Nat.le_gt_cases (buffer_pos s + length data)
                                (2 * length (buffer s))) as [Hle|Hgt];
        [exact Hle|].
      exfalso. rewrite (write_drain_large s data Hwf ltac:(lia) Hgt) in Hw.
      injection Hw as <-.
      set (d1 := skipn (length (buffer s) - buffer_pos s) data) in *.
      assert (length d1 = length data - (length (buffer s) - buffer_pos s))
        as Hd1 by (unfold d1; apply length_skipn).
      assert (length (buffer s) < length d1) as Hlt by lia.
      pose proof (whole_chunks_bounds _ _ Hcap Hlt) as Hb.
      unfold written, pending, read_all in Hc.
      cbn [_file buffer buffer_pos] in Hc.
      rewrite !concat_app in Hc. cbn [concat] in Hc.
      rewrite !length_app, !length_firstn in Hc. cbn [length] in Hc. lia.
  - intros [Hz H2].
    destruct (Nat.le_gt_cases (buffer_pos s + length data)
                              (length (buffer s))) as [Hfit|Hov].
    + destruct (write_small s data Hwf ltac:(lia)) as (s' & Hw & _ & _ & Hc).
      eauto.
    + destruct (write_drain_fits s data Hwf Hov Hz H2)
        as (s' & Hw & _ & _ & Hc).
      eauto.
Qed.

Lemma write_correct_iff_witness :
  (buffer_pos (init 2) <= length (buffer (init 2)) /\
   0 < length (buffer (init 2))) /\
  ~ (exists s', write (init 2) seven = Ok s' /\
                written s' = written (init 2) ++ seven) /\
  (exists s', write (init 2) (firstn 2 seven) = Ok s' /\
              written s' = written (init 2) ++ firstn 2 seven).
Proof.
  split; [cbn; lia|]. split.
  - intros H.
    apply (write_correct_iff (init 2) seven) in H; cbn in *; lia.
  - apply (write_correct_iff (init 2) (firstn 2 seven)); cbn; lia.
Defined.

(** X7.  [write] raises exactly when the adapter was created with a
    buffer of size 0 and is given at least one byte (the division by the
    buffer length at line 177); with any other buffer it returns. *)
Theorem write_raises_iff (s : SnappyFile) (data : bytes) :
  buffer_pos s <= length (buffer s) ->
  (write s data = Raise ZeroDivisionError <->
   length (buffer s) = 0 /\ data <> []) /\
  (0 < length (buffer s) -> exists s', write s data = Ok s').
Proof.
  intros Hwf.
  assert (0 < length (buffer s) -> exists s', write s data = Ok s') as Hok.
  { intros Hcap.
    destruct (Nat.le_gt_cases (buffer_pos s + length data)
                              (length (buffer s))) as [Hfit|Hov].
    { destruct (write_small s data Hwf ltac:(lia)) as (s' & Hw & _). eauto. }
    destruct (Nat.eq_dec (buffer_pos s) 0) as [E|E].
    { rewrite (write_large s data E Hcap ltac:(lia)). eauto. }
    destruct (Nat.le_gt_cases (buffer_pos s + length data)
                              (2 * length (buffer s))) as [Hle|Hgt].
    - destruct (write_drain_fits s data Hwf Hov ltac:(intros; contradiction)
                  Hle) as (s' & Hw & _). eauto.
    - rewrite (write_drain_large s data Hwf ltac:(lia) Hgt). eauto. }
  split; [|exact Hok]. split.
  - intros Hr.
    destruct (Nat.eq_dec (length (buffer s)) 0) as [E|E].
    + split; [exact E|]. intros ->.
      rewrite (write_nothing s Hwf) in Hr. discriminate.
    + destruct (Hok ltac:(lia)) as (s' & Hw). congruence.
  - intros [E Hd]. destruct s as [f buf pos]. cbn [buffer buffer_pos] in *.
    assert (pos = 0) as -> by lia.
    destruct data as [|b rest]; [contradiction|].
    unfold write. cbn [write_loop buffer buffer_pos _file length].
    rewrite E. reflexivity.
Qed.

Lemma write_raises_iff_witness :
  buffer_pos (init 0) <= length (buffer (init 0)) /\
  write (init 0) seven = Raise ZeroDivisionError.
Proof.
  split; [cbn; lia|].
  apply (write_raises_iff (init 0) seven); [cbn; lia|].
  split; [reflexivity | discriminate].
Defined.

End AdapterMore.

(** ** More on the scheduler *)

Section SchedulerMore.

Import Base More.

Lemma run_time (s : SnapshotterBase) (e : env) :
  time (fst (run s e)) =
    match snd (run s e) with Exported => t_done e | _ => time s end.
Proof.
  unfold run. destruct (is_slave s || disable_snapshotting s); [reflexivity|].
  cbn [_skipped_counter interval skip with_counter time time_interval].
  destruct ((_skipped_counter s + 1 <? interval s) || skip s); [reflexivity|].
  destruct (t_delta e - time s <? time_interval s); [reflexivity|].
  destruct (export_ok e); reflexivity.
Qed.

Lemma run_fired_window (s : SnapshotterBase) (e : env) :
  fired (snd (run s e)) = true -> time_interval s <= t_delta e - time s.
Proof.
  unfold run. destruct (is_slave s || disable_snapshotting s); [discriminate|].
  cbn [_skipped_counter interval skip with_counter time time_interval].
  destruct ((_skipped_counter s + 1 <? interval s) || skip s); [discriminate|].
  destruct (Z.ltb_spec (t_delta e - time s) (time_interval s));
    [discriminate|]. intros _. lia.
Qed.

(** X8.  At every tick of every run, [self.time] is the clock reading
    stored by the most recent export that returned (the initial value if
    there was none), and [export] is called only when at least
    [time_interval] has passed since then: no two snapshots are taken
    within one time window. *)
Theorem time_is_last_export (ticks : list (bool * env)) :
  forall (s : SnapshotterBase) (n : Z) (pre post : list obs) (o : obs),
  ticks_trace s n ticks = pre ++ o :: post ->
  time (before o) = last_done (time s) pre /\
  (fired (res o) = true ->
   time_interval s <= t_delta (at_env o) - last_done (time s) pre).
Proof.
  induction ticks as [|[b e] rest IH]; intros s n pre post o Htr.
  { destruct pre; discriminate. }
  cbn [ticks_trace] in Htr.
  pose proof (run_time (with_skip s b) e) as Ht.
  pose proof (run_fired_window (with_skip s b) e) as Hw.
  pose proof (run_keeps_role (with_skip s b) e) as (_ & _ & _ & Hti & _).
  destruct (run (with_skip s b) e) as [s1 r] eqn:Hr. cbn [fst snd] in *.
  destruct pre as [|o1 pre'].
  - injection Htr as <- _. cbn [before res at_env last_done].
    split; [reflexivity|]. exact Hw.
  - injection Htr as <- Hrest. cbn [last_done res at_env].
    destruct (IH s1 _ pre' post o Hrest) as [H1 H2].
    cbn [with_skip time time_interval] in Ht, Hti.
    rewrite <- Ht. split; [exact H1|]. rewrite <- Hti. exact H2.
Qed.

Lemma time_is_last_export_witness :
  time_interval (master 1 15)
    <= 40 - last_done (time (master 1 15))
                      (firstn 2 (ticks_trace (master 1 15) 0
                                   [at_time 20; at_time 30; at_time 40])).
Proof.
  refine (proj2 (time_is_last_export [at_time 20; at_time 30; at_time 40]
                   (master 1 15) 0
                   (firstn 2 (ticks_trace (master 1 15) 0
                                [at_time 20; at_time 30; at_time 40]))
                   [] _ eq_refl) eq_refl).
Defined.

(** X9.  With [skip] on, and on a master with snapshotting enabled, no
    tick exports anything, [self.time] stays, and the counter counts every
    tick. *)
Theorem skip_blocks_export (ticks : list (bool * env)) :
  forall (s : SnapshotterBase) (n : Z),
  is_slave s = false -> disable_snapshotting s = false ->
  Forall (fun t => fst t = true) ticks ->
  Forall (fun o => res o = NoExport) (ticks_trace s n ticks) /\
  forall (i : nat) (o : obs), ticks_trace s n ticks !! i = Some o ->
    _skipped_counter (after o) = _skipped_counter s + Z.of_nat i + 1 /\
    time (after o) = time s.
Proof.
  induction ticks as [|[b e] rest IH]; intros s n Hs Hd Hall.
  { split; [constructor|]. intros i o H. discriminate. }
  apply Forall_cons in Hall as [Hb Hrest]. cbn [fst] in Hb. subst b.
  cbn [ticks_trace].
  assert (run (with_skip s true) e
          = (with_counter (with_skip s true) (_skipped_counter s + 1),
             NoExport)) as Hr.
  { unfold run. cbn [is_slave disable_snapshotting with_skip].
    rewrite Hs, Hd. cbn [orb].
    cbn [_skipped_counter interval skip with_counter with_skip].
    rewrite orb_true_r. reflexivity. }
  rewrite Hr. cbn [fired].
  destruct (IH (with_counter (with_skip s true) (_skipped_counter s + 1))
               (n + 1) Hs Hd Hrest) as [Hno Hcnt].
  split; [constructor; [reflexivity | exact Hno]|].
  intros [|i] o Hi.
  - injection Hi as <-. cbn. split; [lia | reflexivity].
  - cbn [lookup list_lookup] in Hi. destruct (Hcnt i o Hi) as [H1 H2].
    cbn [_skipped_counter time with_counter with_skip] in H1, H2.
    split; [lia | exact H2].
Qed.

Lemma skip_blocks_export_witness :
  (is_slave (master 1 0) = false /\
   disable_snapshotting (master 1 0) = false /\
   Forall (fun t => fst t = true)
          [(true, Env 10 10 true); (true, Env 99 99 true)]) /\
  Forall (fun o => res o = NoExport)
         (ticks_trace (master 1 0) 0
                      [(true, Env 10 10 true); (true, Env 99 99 true)]).
Proof.
  assert (Forall (fun t : bool * env => fst t = true)
            [(true, Env 10 10 true); (true, Env 99 99 true)]) as H
    by (repeat constructor).
  split; [repeat split; exact H|].
  exact (proj1 (skip_blocks_export _ (master 1 0) 0 eq_refl eq_refl H)).
Defined.

(** X10.  With [skip] off, a clock that does not run backwards and no time
    window ([time_interval <= 0]), [export] is called on exactly every
    [interval]-th tick: on the tick number [i] (from 0) exactly when
    [counter + i + 1] is a multiple of [interval]. *)
Theorem export_every_interval (ticks : list (bool * env)) :
  forall (s : SnapshotterBase) (n t : Z),
  is_slave s = false -> disable_snapshotting s = false ->
  1 <= interval s -> 0 <= _skipped_counter s < interval s ->
  time_interval s <= 0 -> time s <= t -> clock_ok t ticks ->
  Forall (fun k => fst k = false) ticks ->
  fires (ticks_trace s n ticks) =
    map (fun i => (_skipped_counter s + Z.of_nat i + 1) mod interval s =? 0)
        (seq 0 (length ticks)).
Proof.
  induction ticks as [|[b e] rest IH];
    intros s n t Hs Hd Hi Hc Hti Ht Hclk Hall; [reflexivity|].
  apply Forall_cons in Hall as [Hb Hrest]. cbn [fst] in Hb. subst b.
  destruct Hclk as (Ht1 & Ht2 & Hclk).
  cbn [ticks_trace length seq map].
  pose proof (run_keeps_role (with_skip s false) e) as (Kr & Kd & Ki & Kt & _).
  pose proof (run_time (with_skip s false) e) as Htime.
  cbn [with_skip is_slave disable_snapshotting interval time_interval time]
    in Kr, Kd, Ki, Kt, Htime.
  assert (Z.of_nat 0 = 0) as -> by reflexivity. rewrite Z.add_0_r.
  destruct (Z.ltb_spec (_skipped_counter s + 1) (interval s)) as [Hlt|Hge].
  - assert (run (with_skip s false) e
            = (with_counter (with_skip s false) (_skipped_counter s + 1),
               NoExport)) as Hr.
    { unfold run. cbn [is_slave disable_snapshotting with_skip].
      rewrite Hs, Hd. cbn [orb].
      cbn [_skipped_counter interval skip with_counter with_skip].
      assert ((_skipped_counter s + 1 <? interval s) = true) as ->
        by (apply Z.ltb_lt; lia).
      reflexivity. }
    rewrite Hr in *. cbn [fst snd fired fires map res] in *.
    f_equal.
    + symmetry. apply Z.eqb_neq. rewrite Z.mod_small by lia. lia.
    + fold (fires (ticks_trace
                     (with_counter (with_skip s false) (_skipped_counter s + 1))
                     (n + 1) rest)).
      rewrite (IH (with_counter (with_skip s false) (_skipped_counter s + 1))
                  (n + 1) (t_done e) Hs Hd Hi
                  ltac:(cbn; lia) Hti ltac:(cbn; lia) Hclk Hrest).
      rewrite <- seq_shift, map_map. apply map_ext. intros i.
      cbn [_skipped_counter interval with_counter with_skip].
      f_equal. f_equal. lia.
  - assert (_skipped_counter s + 1 = interval s) as Heq by lia.
    assert (exists s1 r, run (with_skip s false) e = (s1, r) /\
              fired r = true /\ _skipped_counter s1 = 0) as (s1 & r & Hr & Hf & Hc1).
    { unfold run. cbn [is_slave disable_snapshotting with_skip].
      rewrite Hs, Hd. cbn [orb].
      cbn [_skipped_counter interval skip with_counter with_skip time
           time_interval].
      assert ((_skipped_counter s + 1 <? interval s) = false) as ->
        by (apply Z.ltb_ge; lia).
      cbn [orb].
      assert ((t_delta e - time s <? time_interval s) = false) as ->
        by (apply Z.ltb_ge; lia).
      destruct (export_ok e); eexists _, _; repeat split; reflexivity. }
    rewrite Hr in *. cbn [fst snd fires map res] in *. rewrite Hf.
    f_equal.
    + symmetry. apply Z.eqb_eq. rewrite Heq. apply Z_mod_same_full.
    + fold (fires (ticks_trace s1 0 rest)).
      rewrite (IH s1 0 (t_done e) ltac:(congruence) ltac:(congruence)
                  ltac:(lia) ltac:(lia) ltac:(lia)
                  ltac:(rewrite Htime; destruct r; lia) Hclk Hrest).
      rewrite <- seq_shift, map_map. apply map_ext. intros i.
      rewrite Hc1, Ki.
      replace (_skipped_counter s + Z.of_nat (S i) + 1)
        with (0 + Z.of_nat i + 1 + 1 * interval s) by lia.
      rewrite Z.mod_add by lia. reflexivity.
Qed.

Lemma export_every_interval_witness :
  fires (ticks_trace (master 3 0) 0
           [at_time 1; at_time 2; at_time 3; at_time 4; at_time 5; at_time 6])
    = [false; false; true; false; false; true].
Proof.
  refine (export_every_interval
            [at_time 1; at_time 2; at_time 3; at_time 4; at_time 5; at_time 6]
            (master 3 0) 0 0 eq_refl eq_refl _ _ _ _ _ _);
    cbn; try lia; repeat split; try lia; repeat constructor.
Defined.

End SchedulerMore.

(** ** More on the roles and the gate *)

Section GateMore.

Import Base More.

Lemma step_keeps_role (s : SnapshotterBase) (ev : event) :
  is_slave (fst (step s ev)) = is_slave s /\
  disable_snapshotting (fst (step s ev)) = disable_snapshotting s /\
  gate_skip (fst (step s ev)) = gate_skip s /\
  gate_block (fst (step s ev)) = gate_block s.
Proof.
  assert (forall s0 e, is_slave (fst (run s0 e)) = is_slave s0 /\
            disable_snapshotting (fst (run s0 e)) = disable_snapshotting s0 /\
            gate_skip (fst (run s0 e)) = gate_skip s0 /\
            gate_block (fst (run s0 e)) = gate_block s0) as Hrun.
  { intros s0 e. unfold run.
    destruct (is_slave s0 || disable_snapshotting s0); [tauto|].
    cbn [_skipped_counter interval skip with_counter time time_interval].
    destruct ((_skipped_counter s0 + 1 <? interval s0) || skip s0);
      [cbn; tauto|].
    destruct (t_delta e - time s0 <? time_interval s0); [cbn; tauto|].
    destruct (export_ok e); cbn; tauto. }
  assert (forall id e, is_slave (fst (_slave_ended s (Some id) e)) = is_slave s /\
            disable_snapshotting (fst (_slave_ended s (Some id) e))
              = disable_snapshotting s /\
            gate_skip (fst (_slave_ended s (Some id) e)) = gate_skip s /\
            gate_block (fst (_slave_ended s (Some id) e)) = gate_block s)
    as Hend.
  { intros id e. unfold _slave_ended.
    destruct (slaves s !! id); [|tauto].
    destruct (negb _); [|cbn; tauto].
    pose proof (Hrun (with_slaves s (delete id (slaves s))) e) as K.
    destruct (run _ e). exact K. }
  destruct ev as [e|b|id|[id|] e|id e]; cbn [step].
  - pose proof (Hrun s e) as K. destruct (run s e). exact K.
  - cbn. tauto.
  - cbn. tauto.
  - apply Hend.
  - cbn. tauto.
  - rewrite drop_is_slave_ended. apply Hend.
Qed.

Lemma run_idle (s : SnapshotterBase) (e : env) :
  is_slave s || disable_snapshotting s = true -> run s e = (s, NoExport).
Proof. intros H. unfold run. rewrite H. reflexivity. Qed.

Lemma step_idle (s : SnapshotterBase) (ev : event) :
  is_slave s || disable_snapshotting s = true ->
  Forall (fun r => r = NoExport) (snd (step s ev)) /\
  _skipped_counter (fst (step s ev)) = _skipped_counter s /\
  time (fst (step s ev)) = time s.
Proof.
  intros H.
  assert (forall id e,
            Forall (fun r => r = NoExport) (snd (_slave_ended s (Some id) e)) /\
            _skipped_counter (fst (_slave_ended s (Some id) e))
              = _skipped_counter s /\
            time (fst (_slave_ended s (Some id) e)) = time s) as Hend.
  { intros id e. unfold _slave_ended.
    destruct (slaves s !! id); [|cbn; auto].
    destruct (negb _); [|cbn; auto].
    rewrite (run_idle (with_slaves s (delete id (slaves s))) e H).
    cbn. auto. }
  destruct ev as [e|b|id|[id|] e|id e]; cbn [step].
  - rewrite (run_idle s e H). cbn. auto.
  - cbn. auto.
  - cbn. auto.
  - apply Hend.
  - cbn. auto.
  - rewrite drop_is_slave_ended. apply Hend.
Qed.

(** X11.  On a slave, or with snapshotting disabled, nothing that happens
    to the unit (ticks, worker notifications, changes of [skip]) ever
    exports, and neither the counter nor [self.time] moves. *)
Theorem idle_role_never_exports (evs : list event) :
  forall s : SnapshotterBase,
  is_slave s || disable_snapshotting s = true ->
  Forall (fun r => r = NoExport) (snd (exec s evs)) /\
  _skipped_counter (fst (exec s evs)) = _skipped_counter s /\
  time (fst (exec s evs)) = time s.
Proof.
  induction evs as [|ev rest IH]; intros s H; [cbn; auto|].
  rewrite exec_cons. cbn [fst snd].
  destruct (step_idle s ev H) as (H1 & H2 & H3).
  destruct (step_keeps_role s ev) as (K1 & K2 & _).
  destruct (IH (fst (step s ev))) as (I1 & I2 & I3).
  { rewrite K1, K2. exact H. }
  split; [apply Forall_app; auto|]. split; congruence.
Qed.

Lemma idle_role_never_exports_witness :
  is_slave (Mk true false 1 0 0 0 false ∅ false false)
    || disable_snapshotting (Mk true false 1 0 0 0 false ∅ false false) = true /\
  Forall (fun r => r = NoExport)
    (snd (exec (Mk true false 1 0 0 0 false ∅ false false)
               [Tick (Env 50 50 true); Assigned "A";
                Completed (Some "A"%string) (Env 60 60 true)])).
Proof.
  split; [reflexivity|].
  exact (proj1 (idle_role_never_exports
                  [Tick (Env 50 50 true); Assigned "A";
                   Completed (Some "A"%string) (Env 60 60 true)]
                  (Mk true false 1 0 0 0 false ∅ false false) eq_refl)).
Defined.

Lemma step_pending (s : SnapshotterBase) (ev : event) :
  dom (slaves (fst (step s ev))) = pending_after (dom (slaves s)) ev.
Proof.
  assert (forall id e, dom (slaves (fst (_slave_ended s (Some id) e)))
                       = dom (slaves s) ∖ {[id]}) as Hend.
  { intros id e. unfold _slave_ended.
    destruct (slaves s !! id) eqn:Hl.
    - destruct (negb _).
      + pose proof (run_keeps_role (with_slaves s (delete id (slaves s))) e)
          as (_ & _ & _ & _ & K).
        destruct (run _ e) as [s2 r]. cbn [fst] in *. rewrite K.
        cbn [slaves with_slaves]. apply dom_delete_L.
      + cbn [fst slaves with_slaves]. apply dom_delete_L.
    - cbn [fst]. apply not_elem_of_dom in Hl. apply set_eq. intros x.
      rewrite elem_of_difference, elem_of_singleton. split.
      + intros Hx. split; [exact Hx | intros ->; contradiction].
      + intros [Hx _]. exact Hx. }
  destruct ev as [e|b|id|[id|] e|id e]; cbn [step pending_after].
  - pose proof (run_keeps_role s e) as (_ & _ & _ & _ & K).
    destruct (run s e). cbn [fst] in *. rewrite K. reflexivity.
  - reflexivity.
  - cbn. apply dom_insert_L.
  - apply Hend.
  - reflexivity.
  - rewrite drop_is_slave_ended. apply Hend.
Qed.

(** X12.  After any sequence of events the keys of [slaves] are exactly
    the workers that were pending or assigned and have not been completed
    or dropped since; ticks, changes of [skip] and exports never touch
    them. *)
Theorem pending_is_assigned_minus_removed (evs : list event) :
  forall s : SnapshotterBase,
  dom (slaves (fst (exec s evs))) = foldl pending_after (dom (slaves s)) evs.
Proof.
  induction evs as [|ev rest IH]; intros s; [reflexivity|].
  rewrite exec_cons. cbn [fst foldl]. rewrite IH, step_pending. reflexivity.
Qed.

(** X13.  Dropping a worker does exactly what its completion does, in
    every state. *)
Theorem drop_equals_completion (s : SnapshotterBase) (id : string) (e : env) :
  step s (Dropped id e) = step s (Completed (Some id) e).
Proof. cbn [step]. apply drop_is_slave_ended. Qed.

Lemma step_gated (s : SnapshotterBase) (ev : event) :
  gate_skip s || gate_block s = true -> is_tick ev = false ->
  snd (step s ev) = [].
Proof.
  intros Hg Ht.
  assert (forall id e, snd (_slave_ended s (Some id) e) = []) as Hend.
  { intros id e. destruct (slaves s !! id) eqn:Hl.
    - rewrite (slave_ended_gated s id e (mk_is_Some _ _ Hl) Hg). reflexivity.
    - rewrite (proj1 (slave_ended_absent s id e Hl)). reflexivity. }
  destruct ev as [e|b|id|[id|] e|id e]; cbn [step is_tick] in *;
    try discriminate; try reflexivity.
  - apply Hend.
  - rewrite drop_is_slave_ended. apply Hend.
Qed.

(** X14.  While [gate_skip] or [gate_block] is set, no worker
    notification calls [run], however many workers complete or drop and
    whether or not the pending set becomes empty: only a tick can export. *)
Theorem gated_notifications_never_run (evs : list event) :
  forall s : SnapshotterBase,
  gate_skip s || gate_block s = true ->
  Forall (fun ev => is_tick ev = false) evs ->
  snd (exec s evs) = [].
Proof.
  induction evs as [|ev rest IH]; intros s Hg Hall; [reflexivity|].
  apply Forall_cons in Hall as [Ht Hrest].
  rewrite exec_cons. cbn [snd]. rewrite (step_gated s ev Hg Ht).
  destruct (step_keeps_role s ev) as (_ & _ & K1 & K2).
  apply IH; [rewrite K1, K2; exact Hg | exact Hrest].
Qed.

Lemma gated_notifications_never_run_witness :
  (gate_skip (blocked abc) || gate_block (blocked abc) = true /\
   Forall (fun ev => is_tick ev = false) abc_done) /\
  snd (exec (blocked abc) abc_done) = [].
Proof.
  assert (Forall (fun ev => is_tick ev = false) abc_done) as H
    by (repeat constructor).
  split; [split; [reflexivity | exact H]|].
  exact (gated_notifications_never_run abc_done (blocked abc) eq_refl H).
Defined.

(** X15.  Assigning a worker that is already pending changes nothing, and
    assigning a worker and then completing it, while another worker is
    pending, gives back the unit as it was and calls nothing. *)
Theorem assign_then_complete (s : SnapshotterBase) (id : string) (e : env) :
  (is_Some (slaves s !! id) ->
   generate_data_for_slave (generate_data_for_slave s id) id
     = generate_data_for_slave s id /\
   dom (slaves (generate_data_for_slave s id)) = dom (slaves s)) /\
  (slaves s !! id = None -> slaves s <> ∅ ->
   step (generate_data_for_slave s id) (Completed (Some id) e) = (s, [])).
Proof.
  split.
  - intros Hin. unfold generate_data_for_slave. cbn [slaves with_slaves].
    split.
    + unfold with_slaves. cbn. rewrite insert_insert_eq. reflexivity.
    + rewrite dom_insert_L. apply elem_of_dom in Hin. apply set_eq.
      intros x. rewrite elem_of_union, elem_of_singleton. split.
      * intros [->|Hx]; assumption.
      * auto.
  - intros Hno Hne. cbn [step]. unfold apply_data_from_slave.
    assert (delete id (slaves (generate_data_for_slave s id)) = slaves s)
      as Hdel.
    { cbn. rewrite delete_insert_eq. apply delete_id. exact Hno. }
    rewrite slave_ended_not_last.
    + rewrite Hdel. destruct s. reflexivity.
    + cbn. rewrite lookup_insert_eq. eauto.
    + rewrite Hdel. exact Hne.
Qed.

Lemma assign_then_complete_witness :
  step (generate_data_for_slave only_c "A")
       (Completed (Some "A"%string) (Env 5 5 true)) = (only_c, []).
Proof.
  apply (assign_then_complete only_c "A" (Env 5 5 true)).
  - vm_compute. reflexivity.
  - intros K. apply (f_equal (fun m => m !! "C"%string)) in K.
    vm_compute in K. discriminate K.
Defined.

(** X16.  After [init_unpickled] the unit has forgotten every pending
    worker: completions and drops that arrive afterwards change nothing and
    call nothing. *)
Theorem unpickled_ignores_notifications (evs : list event) :
  forall s : SnapshotterBase,
  Forall (fun ev => is_notification ev = true) evs ->
  exec (init_unpickled s) evs = (init_unpickled s, []).
Proof.
  induction evs as [|ev rest IH]; intros s Hall; [reflexivity|].
  apply Forall_cons in Hall as [Hn Hrest].
  rewrite exec_cons.
  rewrite (notification_absent (init_unpickled s) ev Hn)
    by (intros; apply lookup_empty).
  cbn [fst snd]. rewrite (IH s Hrest). reflexivity.
Qed.

Lemma unpickled_ignores_notifications_witness :
  Forall (fun ev => is_notification ev = true) abc_done /\
  exec (More.init_unpickled abc) abc_done = (More.init_unpickled abc, []).
Proof.
  assert (Forall (fun ev => is_notification ev = true) abc_done) as H
    by (repeat constructor).
  split; [exact H|].
  exact (unpickled_ignores_notifications abc_done abc H).
Defined.

End GateMore.

(** ** More on paths: the extension of a name that ends in a known one *)

Section PathsMore.

Import Path.

Lemma rfind_from_absent (c : ascii) (b : list ascii) :
  Forall (fun x => x <> c) b ->
  forall i found, rfind_from c i b found = found.
Proof.
  induction 1 as [|x r Hx _ IH]; intros i found; cbn [rfind_from];
    [reflexivity|].
  rewrite IH. destruct (Ascii.eqb_spec x c); [contradiction | reflexivity].
Qed.

Lemma rfind_from_app_absent (c : ascii) (a b : list ascii) :
  Forall (fun x => x <> c) b ->
  forall i found, rfind_from c i (a ++ b) found = rfind_from c i a found.
Proof.
  intros Hb. induction a as [|x r IH]; intros i found; cbn [rfind_from app].
  - apply rfind_from_absent. exact Hb.
  - apply IH.
Qed.

Lemma rfind_from_hit (c : ascii) (a e : list ascii) :
  Forall (fun x => x <> c) e ->
  forall i found,
  rfind_from c i (a ++ c :: e) found = i + Z.of_nat (length a).
Proof.
  intros He. induction a as [|x r IH]; intros i found;
    cbn [rfind_from app length].
  - rewrite (rfind_from_absent c e He). rewrite Ascii.eqb_refl. lia.
  - rewrite IH. lia.
Qed.

Lemma rfind_bounds (c : ascii) (a : list ascii) :
  -1 <= rfind c a < Z.of_nat (length a).
Proof.
  destruct (rfind_spec c a) as [E|(H0 & r & Hr)]; [lia|].
  split; [lia|].
  destruct (Z_lt_le_dec (rfind c a) (Z.of_nat (length a))) as [?|Hge];
    [assumption|].
  rewrite skipn_all2 in Hr by lia. discriminate Hr.
Qed.

(** Where the extension of a name is known: after a character that is
    neither a dot nor a slash, a dot and then neither dots nor slashes. *)
Lemma splitext_known (a : list ascii) (x : ascii) (e : list ascii) :
  x <> "."%char -> x <> "/"%char ->
  Forall (fun c => c <> "."%char) e -> Forall (fun c => c <> "/"%char) e ->
  splitext_chars (a ++ x :: "."%char :: e) = (a ++ [x], "."%char :: e).
Proof.
  intros Hxd Hxs Hed Hes. unfold splitext_chars.
  assert (rfind "." (a ++ x :: "."%char :: e) = Z.of_nat (length a) + 1)
    as Hdot.
  { unfold rfind.
    replace (a ++ x :: "."%char :: e) with ((a ++ [x]) ++ "."%char :: e)
      by (rewrite <- app_assoc; reflexivity).
    rewrite (rfind_from_hit "." (a ++ [x]) e Hed), length_app. cbn. lia. }
  assert (rfind "/" (a ++ x :: "."%char :: e) = rfind "/" a) as Hsep.
  { unfold rfind. apply rfind_from_app_absent.
    constructor; [exact Hxs|]. constructor; [discriminate | exact Hes]. }
  rewrite Hdot, Hsep.
  pose proof (rfind_bounds "/" a) as Hb.
  assert ((rfind "/" a <? Z.of_nat (length a) + 1) = true) as ->
    by (apply Z.ltb_lt; lia).
  set (fi := Z.to_nat (rfind "/" a + 1)).
  assert (fi <= length a)%nat as Hfi by (unfold fi; lia).
  assert (firstn (Z.to_nat (Z.of_nat (length a) + 1 - (rfind "/" a + 1)))
                 (skipn fi (a ++ x :: "."%char :: e))
          = skipn fi a ++ [x]) as ->.
  { rewrite skipn_app.
    replace (fi - length a)%nat with 0%nat by lia. cbn [skipn].
    replace (Z.to_nat (Z.of_nat (length a) + 1 - (rfind "/" a + 1)))
      with (length (skipn fi a ++ [x]))
      by (rewrite length_app, length_skipn; cbn; unfold fi; lia).
    replace (skipn fi a ++ x :: "."%char :: e)
      with ((skipn fi a ++ [x]) ++ "."%char :: e)
      by (rewrite <- app_assoc; reflexivity).
    apply take_app_length. }
  rewrite forallb_app. cbn [forallb].
  assert (is_dot x = false) as ->.
  { unfold is_dot. apply Ascii.eqb_neq. exact Hxd. }
  rewrite andb_false_r.
  replace (Z.to_nat (Z.of_nat (length a) + 1)) with (length (a ++ [x]))
    by (rewrite length_app; cbn; lia).
  replace (a ++ x :: "."%char :: e) with ((a ++ [x]) ++ "."%char :: e)
    by (rewrite <- app_assoc; reflexivity).
  rewrite take_app_length, drop_app_length. reflexivity.
Qed.

Lemma chars_app (s t : string) :
  list_ascii_of_string (s +:+ t)
    = list_ascii_of_string s ++ list_ascii_of_string t.
Proof.
  induction s as [|c r IH]; simpl; [reflexivity|].
  rewrite IH. reflexivity.
Qed.

Lemma append_assoc (a b c : string) : a +:+ b +:+ c = (a +:+ b) +:+ c.
Proof.
  induction a as [|x r IH]; [reflexivity|].
  change (String x (r +:+ b +:+ c) = String x ((r +:+ b) +:+ c)).
  rewrite IH. reflexivity.
Qed.

Lemma join_ends (a b : string) : exists pre, join a b = pre +:+ b.
Proof.
  unfold join. destruct (startswith_sep b); [exists ""%string; reflexivity|].
  destruct (_ || _); [exists a; reflexivity|].
  exists (a +:+ "/")%string. apply append_assoc.
Qed.

Lemma uint_chars_last (d : Decimal.uint) :
  list_ascii_of_string (NilEmpty.string_of_uint d) = [] \/
  exists y x, list_ascii_of_string (NilEmpty.string_of_uint d) = y ++ [x] /\
              x <> "."%char /\ x <> "/"%char.
Proof.
  induction d as [|d IH|d IH|d IH|d IH|d IH|d IH|d IH|d IH|d IH|d IH];
    [left; reflexivity|..];
    right; cbn [NilEmpty.string_of_uint list_ascii_of_string];
    (destruct IH as [E|(y & x & E & Hx)];
     [rewrite E; eexists [], _; split; [reflexivity | split; discriminate]
     |rewrite E; eexists (_ :: y), x; split; [reflexivity | exact Hx]]).
Qed.

(** ["%d" % n] ends in a digit. *)
Lemma fmt_d_last (n : Z) :
  exists y x, list_ascii_of_string (fmt_d n) = y ++ [x] /\
              x <> "."%char /\ x <> "/"%char.
Proof.
  assert (forall d, exists y x,
            list_ascii_of_string (NilZero.string_of_uint d) = y ++ [x] /\
            x <> "."%char /\ x <> "/"%char) as Hu.
  { intros d. destruct (uint_chars_last d) as [E|H].
    - destruct d; try discriminate E.
      eexists [], _. split; [reflexivity | split; discriminate].
    - destruct d; try exact H.
      eexists [], _. split; [reflexivity | split; discriminate]. }
  unfold fmt_d. destruct (Z.to_int n) as [d|d]; cbn [NilZero.string_of_int].
  - apply Hu.
  - destruct (Hu d) as (y & x & E & Hx).
    exists ("-"%char :: y), x. cbn [list_ascii_of_string]. rewrite E.
    split; [reflexivity | exact Hx].
Qed.

End PathsMore.

(** ** More on export and import *)

Section SnapshotterMore.

Import Path Snap.
Local Open Scope string_scope.

Variable ver : Z.

Lemma follow_not_link (d : nat) (m : gmap string node) (p : string) :
  (forall t, m !! p <> Some (Symlink t)) -> follow d m p = Some p.
Proof.
  intros H. destruct d; cbn [follow];
    destruct (m !! p) as [[k b|t]|] eqn:E; try reflexivity;
    exfalso; apply (H t); reflexivity.
Qed.

Lemma name_chars (s : Snapshotter) :
  exists A, list_ascii_of_string (join (directory s) (rel_file_name ver s))
            = (A ++ list_ascii_of_string (fmt_d ver)
                 ++ list_ascii_of_string ".pickle"
                 ++ list_ascii_of_string (ext_of s))%list.
Proof.
  destruct (join_ends (directory s) (rel_file_name ver s)) as (pre & ->).
  unfold rel_file_name. rewrite !chars_app.
  exists (list_ascii_of_string pre ++ list_ascii_of_string (prefix s)
            ++ list_ascii_of_string "_"
            ++ list_ascii_of_string (fmt_s (suffix s))
            ++ list_ascii_of_string ".")%list.
  rewrite <- !app_assoc. reflexivity.
Qed.

(** The two codec tables agree on every compression except ["snappy"]:
    the extension [export] gives the file selects, in [READ_CODECS], a
    one-argument constructor of the stream class that wrote it. *)
Lemma codec_tables (s : Snapshotter) :
  compression s ∈ [None; Some ""; Some "gz"; Some "bz2"; Some "xz"] ->
  exists k key,
    WRITE_CODECS !! compression s = Some k /\
    snd (splitext (join (directory s) (rel_file_name ver s))) = key /\
    READ_CODECS !! key = Some (Reader 1 k).
Proof.
  intros Hc. destruct (name_chars s) as (A & HA).
  destruct (fmt_d_last ver) as (y & x & Hy & Hxd & Hxs).
  assert (forall c : list ascii,
            list_ascii_of_string (ext_of s) = ("."%char :: c)%list ->
            Forall (fun a => a <> "."%char) c ->
            Forall (fun a => a <> "/"%char) c ->
            snd (splitext (join (directory s) (rel_file_name ver s)))
              = string_of_list_ascii ("."%char :: c)) as Hzip.
  { intros c He Hd Hs. unfold splitext. rewrite HA, He.
    replace (A ++ list_ascii_of_string (fmt_d ver)
               ++ list_ascii_of_string ".pickle" ++ "."%char :: c)%list
      with ((A ++ list_ascii_of_string (fmt_d ver)
               ++ list_ascii_of_string ".pickl")
              ++ "e"%char :: "."%char :: c)%list
      by (rewrite <- !app_assoc; reflexivity).
    rewrite splitext_known by (assumption || discriminate). reflexivity. }
  assert (ext_of s = "" ->
          snd (splitext (join (directory s) (rel_file_name ver s)))
            = ".pickle") as Hraw.
  { intros He. unfold splitext. rewrite HA, He, Hy.
    replace (A ++ (y ++ [x]) ++ list_ascii_of_string ".pickle"
               ++ list_ascii_of_string "")%list
      with ((A ++ y) ++ x :: "."%char :: list_ascii_of_string "pickle")%list
      by (rewrite <- !app_assoc; reflexivity).
    rewrite splitext_known;
      [reflexivity | assumption | assumption
      | repeat constructor; discriminate | repeat constructor; discriminate]. }
  repeat (apply elem_of_cons in Hc as [Hc|Hc]);
    [ | | | | | apply elem_of_nil in Hc; contradiction].
  - exists RawFile, ".pickle". rewrite Hc. split; [reflexivity|].
    split; [|reflexivity]. apply Hraw. unfold ext_of. rewrite Hc. reflexivity.
  - exists RawFile, ".pickle". rewrite Hc. split; [reflexivity|].
    split; [|reflexivity]. apply Hraw. unfold ext_of. rewrite Hc. reflexivity.
  - exists GzipFile, ".gz". rewrite Hc. split; [reflexivity|].
    split; [|reflexivity].
    apply (Hzip (list_ascii_of_string "gz"));
      [unfold ext_of; rewrite Hc; reflexivity | |];
      repeat constructor; discriminate.
  - exists BZ2File, ".bz2". rewrite Hc. split; [reflexivity|].
    split; [|reflexivity].
    apply (Hzip (list_ascii_of_string "bz2"));
      [unfold ext_of; rewrite Hc; reflexivity | |];
      repeat constructor; discriminate.
  - exists LZMAFile, ".xz". rewrite Hc. split; [reflexivity|].
    split; [|reflexivity].
    apply (Hzip (list_ascii_of_string "xz"));
      [unfold ext_of; rewrite Hc; reflexivity | |];
      repeat constructor; discriminate.
Qed.

End SnapshotterMore.


(** ** The default interval *)

Section DefaultInterval.

Import Base More.

(** X20.  With [interval] at most 1 (the default is 1) the tick count never
    holds an export back: along every run of a master, [export] is called
    on a tick exactly when [skip] is off and at least [time_interval] has
    passed since [self.time]. *)
Theorem unit_interval_every_tick (ticks : list (bool * env)) :
  forall (s : SnapshotterBase) (n : Z),
  is_slave s = false -> disable_snapshotting s = false ->
  interval s <= 1 -> 0 <= _skipped_counter s ->
  Forall (fun o => fired (res o) = true <->
                   skip (before o) = false /\
                   time_interval (before o)
                     <= t_delta (at_env o) - time (before o))
         (ticks_trace s n ticks).
Proof.
  induction ticks as [|[b e] rest IH]; intros s n Hs Hd Hi Hc;
    [constructor|].
  cbn [ticks_trace].
  pose proof (run_policy (with_skip s b) e (_skipped_counter s) Hs Hd
                ltac:(cbn; lia)) as Hp.
  pose proof (run_keeps_role (with_skip s b) e) as (Kr & Kd & Ki & _).
  destruct (run (with_skip s b) e) as [s1 r] eqn:Hr.
  cbn [fst snd] in *.
  cbn [with_skip is_slave disable_snapshotting interval] in Kr, Kd, Ki.
  destruct Hp as (Hiff & _ & _ & Hreset & Hinc & _).
  cbn [before since at_env res after] in *.
  constructor.
  - cbn [before at_env res]. rewrite Hiff. unfold code_guard.
    cbn [interval _skipped_counter with_skip] in *. split.
    + intros (_ & Hk & Ht). auto.
    + intros (Hk & Ht). repeat split; [lia | exact Hk | exact Ht].
  - apply IH; [congruence | congruence | lia |].
    cbn [interval _skipped_counter skip with_skip] in *.
    destruct b.
    + rewrite Hinc; [lia | intros [_ K]; discriminate].
    + rewrite (Hreset ltac:(lia) eq_refl). lia.
Qed.

Lemma unit_interval_every_tick_witness :
  Forall (fun o => fired (res o) = true <->
                   skip (before o) = false /\
                   time_interval (before o)
                     <= t_delta (at_env o) - time (before o))
         (ticks_trace
            (initialize (__init__ false false false false (Kwargs None None))
                        100)
            0 [at_time 110; at_time 120]) /\
  fires (ticks_trace
           (initialize (__init__ false false false false (Kwargs None None))
                       100)
           0 [at_time 110; at_time 120]) = [false; true].
Proof.
  split; [|reflexivity].
  apply (unit_interval_every_tick [at_time 110; at_time 120]
           (initialize (__init__ false false false false (Kwargs None None))
                       100) 0);
    [reflexivity | reflexivity | cbn; lia | cbn; lia].
Defined.

End DefaultInterval.

(** ** Names of snapshots and aliases *)

Section AliasImport.

Import Path Snap SnapMore.
Local Open Scope string_scope.

Variable ver : Z.

Lemma uint_chars_noslash (d : Decimal.uint) :
  Forall (fun c => c <> "/"%char)
         (list_ascii_of_string (NilEmpty.string_of_uint d)).
Proof.
  induction d; cbn [NilEmpty.string_of_uint list_ascii_of_string];
    constructor; (discriminate || assumption).
Qed.

Lemma fmt_d_noslash (n : Z) :
  Forall (fun c => c <> "/"%char) (list_ascii_of_string (fmt_d n)).
Proof.
  assert (forall d, Forall (fun c => c <> "/"%char)
                      (list_ascii_of_string (NilZero.string_of_uint d))) as Hu.
  { intros d. pose proof (uint_chars_noslash d) as H.
    destruct d; try exact H. repeat constructor. discriminate. }
  unfold fmt_d. destruct (Z.to_int n) as [d|d]; cbn [NilZero.string_of_int].
  - apply Hu.
  - cbn [list_ascii_of_string]. constructor; [discriminate | apply Hu].
Qed.

Lemma ext_of_noslash (s : Snapshotter) :
  compression s ∈ [None; Some ""; Some "gz"; Some "bz2"; Some "xz"] ->
  Forall (fun c => c <> "/"%char) (list_ascii_of_string (ext_of s)).
Proof.
  intros Hc. unfold ext_of.
  repeat (apply elem_of_cons in Hc as [Hc|Hc]);
    try (apply elem_of_nil in Hc; contradiction);
    rewrite Hc; repeat constructor; discriminate.
Qed.

Lemma link_name_noslash (s : Snapshotter) :
  compression s ∈ [None; Some ""; Some "gz"; Some "bz2"; Some "xz"] ->
  Forall (fun c => c <> "/"%char) (list_ascii_of_string (prefix s)) ->
  Forall (fun c => c <> "/"%char) (list_ascii_of_string (link_name ver s)).
Proof.
  intros Hc Hp. unfold link_name. rewrite !chars_app.
  repeat apply Forall_app_2; try assumption.
  - repeat constructor; discriminate.
  - apply fmt_d_noslash.
  - repeat constructor; discriminate.
  - apply ext_of_noslash. exact Hc.
Qed.

Lemma starts_like_prefix (s : Snapshotter) (rest : string) :
  Forall (fun c => c <> "/"%char) (list_ascii_of_string (prefix s)) ->
  startswith_sep (prefix s +:+ "_" +:+ rest) = false.
Proof.
  intros Hp. destruct (prefix s) as [|c r]; [reflexivity|].
  cbn [list_ascii_of_string] in Hp. apply Forall_cons in Hp as [Hc _].
  simpl. unfold is_sep. apply Ascii.eqb_neq. exact Hc.
Qed.

Lemma join_plain (a b : string) :
  a <> "" -> endswith_sep a = false -> startswith_sep b = false ->
  join a b = a +:+ "/" +:+ b.
Proof.
  intros Ha He Hb. unfold join. rewrite Hb, He.
  destruct a; [contradiction | reflexivity].
Qed.

Lemma dirname_plain (a b : string) :
  a <> "" -> endswith_sep a = false ->
  Forall (fun c => c <> "/"%char) (list_ascii_of_string b) ->
  dirname (a +:+ "/" +:+ b) = a.
Proof.
  intros Ha He Hb. unfold dirname. rewrite !chars_app.
  cbn [list_ascii_of_string app].
  assert (rfind "/" (list_ascii_of_string a ++ "/"%char :: list_ascii_of_string b)
          = Z.of_nat (length (list_ascii_of_string a))) as ->.
  { unfold rfind. rewrite rfind_from_hit by exact Hb. lia. }
  replace (Z.to_nat (Z.of_nat (length (list_ascii_of_string a)) + 1))
    with (length (list_ascii_of_string a ++ ["/"%char]))
    by (rewrite length_app; cbn; lia).
  replace (list_ascii_of_string a ++ "/"%char :: list_ascii_of_string b)%list
    with ((list_ascii_of_string a ++ ["/"%char]) ++ list_ascii_of_string b)%list
    by (rewrite <- app_assoc; reflexivity).
  rewrite take_app_length.
  unfold endswith_sep in He.
  destruct (rev (list_ascii_of_string a)) as [|c t] eqn:Hrev.
  { exfalso. apply Ha. apply (f_equal (@rev _)) in Hrev.
    rewrite rev_involutive in Hrev. cbn in Hrev.
    rewrite <- (string_of_list_ascii_of_string a), Hrev. reflexivity. }
  assert (list_ascii_of_string a = rev t ++ [c])%list as Hchars.
  { apply (f_equal (@rev _)) in Hrev. rewrite rev_involutive in Hrev.
    exact Hrev. }
  assert (forallb is_sep (list_ascii_of_string a ++ ["/"%char]) = false) as ->.
  { rewrite Hchars, !forallb_app. cbn [forallb]. rewrite He.
    rewrite andb_false_r. reflexivity. }
  rewrite rev_app_distr. cbn [rev app lstrip_sep].
  assert (is_sep "/" = true) as -> by reflexivity.
  rewrite Hrev. cbn [lstrip_sep]. rewrite He.
  rewrite <- Hrev, rev_involutive. apply string_of_list_ascii_of_string.
Qed.

Lemma follow_link (d : nat) (m : gmap string node) (p t : string) :
  m !! p = Some (Symlink t) ->
  follow (S d) m p = follow d m (join (dirname p) t).
Proof. intros H. cbn [follow]. rewrite H. reflexivity. Qed.

Lemma alias_swap_creates (f : faults) (w : world) (t link : string) :
  remove_fails f = false -> symlink_fails f = false ->
  fs (try_symlink f (try_remove f w link) t link) !! link
    = Some (Symlink t).
Proof.
  intros Hr Hs. unfold try_symlink, try_remove.
  destruct (fs w !! link) eqn:Hl; rewrite ?Hr; cbn [fs].
  - rewrite lookup_delete_eq, Hs. cbn [fs]. apply lookup_insert_eq.
  - rewrite Hl, Hs. cbn [fs]. apply lookup_insert_eq.
Qed.

(** The extension of any path that ends like a snapshot name. *)
Lemma codec_tables_at (s : Snapshotter) (p : string) (A : list ascii) :
  compression s ∈ [None; Some ""; Some "gz"; Some "bz2"; Some "xz"] ->
  list_ascii_of_string p
    = (A ++ list_ascii_of_string (fmt_d ver)
         ++ list_ascii_of_string ".pickle"
         ++ list_ascii_of_string (ext_of s))%list ->
  exists k key,
    WRITE_CODECS !! compression s = Some k /\
    snd (splitext p) = key /\
    READ_CODECS !! key = Some (Reader 1 k).
Proof.
  intros Hc HA.
  destruct (fmt_d_last ver) as (y & x & Hy & Hxd & Hxs).
  assert (forall c : list ascii,
            list_ascii_of_string (ext_of s) = ("."%char :: c)%list ->
            Forall (fun a => a <> "."%char) c ->
            Forall (fun a => a <> "/"%char) c ->
            snd (splitext p) = string_of_list_ascii ("."%char :: c)) as Hzip.
  { intros c He Hd Hs. unfold splitext. rewrite HA, He.
    replace (A ++ list_ascii_of_string (fmt_d ver)
               ++ list_ascii_of_string ".pickle" ++ "."%char :: c)%list
      with ((A ++ list_ascii_of_string (fmt_d ver)
               ++ list_ascii_of_string ".pickl")
              ++ "e"%char :: "."%char :: c)%list
      by (rewrite <- !app_assoc; reflexivity).
    rewrite splitext_known by (assumption || discriminate). reflexivity. }
  assert (ext_of s = "" -> snd (splitext p) = ".pickle") as Hraw.
  { intros He. unfold splitext. rewrite HA, He, Hy.
    replace (A ++ (y ++ [x]) ++ list_ascii_of_string ".pickle"
               ++ list_ascii_of_string "")%list
      with ((A ++ y) ++ x :: "."%char :: list_ascii_of_string "pickle")%list
      by (rewrite <- !app_assoc; reflexivity).
    rewrite splitext_known;
      [reflexivity | assumption | assumption
      | repeat constructor; discriminate | repeat constructor; discriminate]. }
  repeat (apply elem_of_cons in Hc as [Hc|Hc]);
    [ | | | | | apply elem_of_nil in Hc; contradiction].
  - exists RawFile, ".pickle". rewrite Hc. split; [reflexivity|].
    split; [|reflexivity]. apply Hraw. unfold ext_of. rewrite Hc. reflexivity.
  - exists RawFile, ".pickle". rewrite Hc. split; [reflexivity|].
    split; [|reflexivity]. apply Hraw. unfold ext_of. rewrite Hc. reflexivity.
  - exists GzipFile, ".gz". rewrite Hc. split; [reflexivity|].
    split; [|reflexivity].
    apply (Hzip (list_ascii_of_string "gz"));
      [unfold ext_of; rewrite Hc; reflexivity | |];
      repeat constructor; discriminate.
  - exists BZ2File, ".bz2". rewrite Hc. split; [reflexivity|].
    split; [|reflexivity].
    apply (Hzip (list_ascii_of_string "bz2"));
      [unfold ext_of; rewrite Hc; reflexivity | |];
      repeat constructor; discriminate.
  - exists LZMAFile, ".xz". rewrite Hc. split; [reflexivity|].
    split; [|reflexivity].
    apply (Hzip (list_ascii_of_string "xz"));
      [unfold ext_of; rewrite Hc; reflexivity | |];
      repeat constructor; discriminate.
Qed.

End AliasImport.


(** ** Names in one directory *)

Section Siblings.

Import Path Snap SnapMore.
Local Open Scope string_scope.

Variable ver : Z.

Lemma plain_Forall (p : string) :
  plain p = true -> Forall (fun c => c <> "/"%char) (list_ascii_of_string p).
Proof.
  unfold plain. intros H. apply Forall_forall. intros c Hc.
  rewrite forallb_forall in H. apply list_elem_of_In in Hc.
  specialize (H c Hc). unfold is_sep in H.
  intros ->. rewrite Ascii.eqb_refl in H. discriminate H.
Qed.

Lemma append_inj (d x y : string) : d +:+ x = d +:+ y -> x = y.
Proof.
  induction d as [|c r IH]; simpl; [auto|]. intros [= H]. auto.
Qed.

Lemma join_inj (d a b : string) :
  startswith_sep a = false -> startswith_sep b = false ->
  join d a = join d b -> a = b.
Proof.
  intros Ha Hb. unfold join. rewrite Ha, Hb.
  destruct (_ || _); intros H.
  - exact (append_inj _ _ _ H).
  - apply append_inj in H. injection H as H. exact H.
Qed.

Lemma rel_starts (s : Snapshotter) :
  plain (prefix s) = true -> startswith_sep (rel_file_name ver s) = false.
Proof.
  intros H. unfold rel_file_name. apply starts_like_prefix.
  apply plain_Forall. exact H.
Qed.

Lemma link_starts (s : Snapshotter) :
  plain (prefix s) = true -> startswith_sep (link_name ver s) = false.
Proof.
  intros H. unfold link_name.
  apply (starts_like_prefix s
           ("current." +:+ fmt_d ver +:+ ".pickle" +:+ ext_of s)).
  apply plain_Forall. exact H.
Qed.

Lemma known_codec (c : option string) (k : stream) :
  WRITE_CODECS !! c = Some k ->
  (c, k) ∈ [ (None, RawFile); (Some "", RawFile);
             (Some "snappy", SnappyStream); (Some "gz", GzipFile);
             (Some "bz2", BZ2File); (Some "xz", LZMAFile) ].
Proof. intros H. apply elem_of_list_to_map_2 in H. exact H. Qed.

Lemma link_name_plain (s : Snapshotter) (k : stream) :
  WRITE_CODECS !! compression s = Some k -> plain (prefix s) = true ->
  Forall (fun c => c <> "/"%char) (list_ascii_of_string (link_name ver s)).
Proof.
  intros Hk Hp. apply known_codec in Hk.
  unfold link_name. rewrite !chars_app.
  repeat apply Forall_app_2.
  - apply plain_Forall. exact Hp.
  - repeat constructor; discriminate.
  - apply fmt_d_noslash.
  - repeat constructor; discriminate.
  - unfold ext_of.
    repeat (apply elem_of_cons in Hk as [Hk|Hk]);
      try (apply elem_of_nil in Hk; contradiction);
      injection Hk as -> _; repeat constructor; discriminate.
Qed.

Lemma split_sep_last (l : list ascii) :
  forall cur,
  forallb ok_component (split_sep cur l) = true ->
  (l = [] /\ cur <> []) \/
  (exists a c, l = (a ++ [c])%list /\ is_sep c = false).
Proof.
  induction l as [|c r IH]; intros cur H; cbn [split_sep] in H.
  - left. split; [reflexivity|]. intros ->. discriminate H.
  - right. destruct (is_sep c) eqn:Hc.
    + cbn [forallb] in H. apply andb_true_iff in H as [_ H].
      destruct (IH [] H) as [[_ K]|(a & x & -> & Hx)]; [contradiction|].
      exists (c :: a), x. auto.
    + destruct (IH (c :: cur) H) as [[-> _]|(a & x & -> & Hx)].
      * exists [], c. auto.
      * exists (c :: a), x. auto.
Qed.

(** A path in normal form is the root or does not end in a slash. *)
Lemma canonical_shape (d : string) :
  canonical d = true ->
  d = "/" \/ (d <> "" /\ endswith_sep d = false).
Proof.
  unfold canonical. destruct (list_ascii_of_string d) as [|c rest] eqn:Hd;
    [discriminate|].
  intros H. apply andb_true_iff in H as [Hc H].
  unfold is_sep in Hc. apply Ascii.eqb_eq in Hc. subst c.
  apply orb_true_iff in H as [H|H].
  - left. apply bool_decide_eq_true in H. subst rest.
    rewrite <- (string_of_list_ascii_of_string d), Hd. reflexivity.
  - right. split; [intros ->; discriminate Hd|].
    destruct (split_sep_last rest [] H) as [[_ K]|(a & x & -> & Hx)];
      [contradiction|].
    unfold endswith_sep. rewrite Hd.
    change ("/"%char :: a ++ [x])%list with (("/"%char :: a) ++ [x])%list.
    rewrite rev_app_distr. cbn [rev app]. exact Hx.
Qed.

Lemma dirname_root (b : string) :
  Forall (fun c => c <> "/"%char) (list_ascii_of_string b) ->
  dirname ("/" +:+ b) = "/".
Proof.
  intros Hb. unfold dirname.
  change (list_ascii_of_string ("/" +:+ b))
    with ("/"%char :: list_ascii_of_string b).
  assert (rfind "/" ("/"%char :: list_ascii_of_string b) = 0) as ->.
  { unfold rfind.
    rewrite (rfind_from_hit "/" [] (list_ascii_of_string b) Hb). reflexivity. }
  reflexivity.
Qed.

(** The link [os.symlink(rel, link)] makes in a directory leads to the
    name [rel] in that directory. *)
Lemma alias_resolves (d L rel : string) :
  canonical d = true ->
  Forall (fun c => c <> "/"%char) (list_ascii_of_string L) ->
  startswith_sep L = false -> startswith_sep rel = false ->
  join (dirname (join d L)) rel = join d rel.
Proof.
  intros Hd HL HsL Hsr.
  destruct (canonical_shape d Hd) as [->|[Hne Hend]].
  - assert (join "/" L = "/" +:+ L) as ->
      by (unfold join; rewrite HsL; reflexivity).
    rewrite dirname_root by exact HL. reflexivity.
  - rewrite (join_plain d L Hne Hend HsL).
    rewrite (dirname_plain d L Hne Hend HL). reflexivity.
Qed.

Lemma separate_facts (s : Snapshotter) (m : gmap string node) :
  separate ver s m ->
  join (directory s) (rel_file_name ver s) <> file_name_link ver s /\
  follow MAXSYMLINKS m (join (directory s) (rel_file_name ver s))
    = Some (join (directory s) (rel_file_name ver s)) /\
  canonical (directory s) = true.
Proof.
  intros (Hp & _ & Hne & Hd & _ & Hnl). split; [|split].
  - intros K. apply Hne.
    apply (join_inj (directory s)); [apply rel_starts | apply link_starts |];
      assumption.
  - apply follow_not_link. exact Hnl.
  - unfold resolved_dir, resolved in Hd.
    apply andb_true_iff in Hd as [Hd _].
    apply andb_true_iff in Hd as [Hd _]. exact Hd.
Qed.



(** Through the adapter a dump that hands over more than the buffer holds
    in one write is not stored as it was written: the whole chunks are in
    the file twice. *)
Lemma stored_snappy_large (f : faults) (P : list Byte.byte) (v : nat) :
  dump_writes f = [P] -> (_CHUNK_MAX < length P)%nat ->
  stored SnappyStream f v = Garbled.
Proof.
  intros Hw Hlen. unfold stored. rewrite Hw.
  assert (0 < _CHUNK_MAX)%nat as Hcap by (unfold _CHUNK_MAX; lia).
  assert (Snappy.roundtrip _CHUNK_MAX [P]
          = Snappy.Ok (firstn (length P / _CHUNK_MAX * _CHUNK_MAX) P ++ P)%list)
    as ->.
  { unfold Snappy.roundtrip. cbn [Snappy.writes].
    rewrite write_large;
      cbn [Snappy.init Snappy.buffer Snappy.buffer_pos Snappy._file];
      rewrite ?repeat_length; try lia.
    rewrite read_close_written.
    unfold Snappy.written, Snappy.pending, Snappy.read_all.
    cbn [Snappy.buffer Snappy.buffer_pos Snappy._file app concat].
    rewrite firstn_all, app_nil_r. reflexivity. }
  pose proof (whole_chunks_bounds _CHUNK_MAX (length P) Hcap Hlen) as Hb.
  assert (same_bytes (firstn (length P / _CHUNK_MAX * _CHUNK_MAX) P ++ P)
                     (concat [P]) = false) as ->; [|reflexivity].
  unfold same_bytes. apply bool_decide_eq_false. intros K.
  apply (f_equal (@length _)) in K.
  rewrite !length_map, length_app, length_firstn in K.
  cbn [concat] in K. rewrite app_nil_r in K. lia.
Qed.

Lemma alias_swap_cases (f : faults) (w : world) (t link : string) :
  (is_Some (fs w !! link) -> remove_fails f = true ->
   fs (try_symlink f (try_remove f w link) t link) !! link = fs w !! link) /\
  (fs w !! link = None \/ remove_fails f = false ->
   symlink_fails f = true ->
   fs (try_symlink f (try_remove f w link) t link) !! link = None) /\
  (fs w !! link = None \/ remove_fails f = false ->
   symlink_fails f = false ->
   fs (try_symlink f (try_remove f w link) t link) !! link
     = Some (Symlink t)).
Proof.
  unfold try_symlink, try_remove. split; [|split].
  - intros [n Hn] Hrf. rewrite Hn, Hrf. cbn [fs]. rewrite Hn. cbn [fs].
    exact Hn.
  - intros Hfree Hsf.
    destruct (fs w !! link) as [n|] eqn:Hn.
    + destruct Hfree as [?|Hrf]; [discriminate|]. rewrite Hrf. cbn [fs].
      rewrite lookup_delete_eq, Hsf. cbn [fs]. apply lookup_delete_eq.
    + cbn [fs]. rewrite Hn, Hsf. cbn [fs]. exact Hn.
  - intros Hfree Hsf.
    destruct (fs w !! link) as [n|] eqn:Hn.
    + destruct Hfree as [?|Hrf]; [discriminate|]. rewrite Hrf. cbn [fs].
      rewrite lookup_delete_eq, Hsf. cbn [fs]. apply lookup_insert_eq.
    + cbn [fs]. rewrite Hn, Hsf. cbn [fs]. apply lookup_insert_eq.
Qed.

End Siblings.

(** ** The alias swap, the round trip and the effects of import *)

Section AliasSwap.

Import Path Snap SnapMore.
Local Open Scope string_scope.

Variable ver : Z.

Lemma write_payload_elsewhere (s : Snapshotter) (w : world) (f : faults)
  (p : string) :
  follow MAXSYMLINKS (fs w) (file_name s) = Some (file_name s) ->
  p <> file_name s ->
  fs (fst (write_payload s w f)) !! p = fs w !! p.
Proof.
  intros Hq Hne. unfold write_payload. rewrite Hq.
  destruct (WRITE_CODECS !! compression s); [|reflexivity].
  destruct (open_fails f); [reflexivity|].
  destruct (dump_fails f); cbn [fst fs];
    apply lookup_insert_ne; congruence.
Qed.

Lemma export_raise_fs (s : Snapshotter) (w : world) (f : faults) (e : exn) :
  snd (write_payload
         (with_file_name s (join (directory s) (rel_file_name ver s))) w f)
    = Raise e ->
  export ver s w f
    = (with_file_name s (join (directory s) (rel_file_name ver s)),
       fst (write_payload
              (with_file_name s (join (directory s) (rel_file_name ver s)))
              w f),
       Raise e).
Proof.
  intros He. unfold export.
  destruct (write_payload _ w f) as [w1 r]. cbn [snd] in He. subst r.
  reflexivity.
Qed.

Lemma export_ok_fs (s : Snapshotter) (w : world) (f : faults) :
  snd (write_payload
         (with_file_name s (join (directory s) (rel_file_name ver s))) w f)
    = Ok tt ->
  export ver s w f
    = (with_file_name s (join (directory s) (rel_file_name ver s)),
       try_symlink f
         (try_remove f
            (fst (write_payload
                    (with_file_name s
                       (join (directory s) (rel_file_name ver s))) w f))
            (file_name_link ver s))
         (rel_file_name ver s) (file_name_link ver s),
       Ok tt).
Proof.
  intros He. unfold export.
  destruct (write_payload _ w f) as [w1 r]. cbn [snd] in He. subst r.
  reflexivity.
Qed.


Lemma write_payload_clean (s : Snapshotter) (w : world) (f : faults)
  (k : stream) :
  WRITE_CODECS !! compression s = Some k ->
  follow MAXSYMLINKS (fs w) (file_name s) = Some (file_name s) ->
  open_fails f = false -> dump_fails f = false ->
  write_payload s w f
    = (World (<[file_name s := File k (stored k f (workflow s))]> (fs w))
             (log w ++ [OpenWrite k (file_name s)]), Ok tt).
Proof.
  intros Hk Hq Ho Hd. unfold write_payload. rewrite Hk, Hq, Ho, Hd.
  reflexivity.
Qed.

Lemma plain_stream (s : Snapshotter) (k : stream) (f : faults) (v : nat) :
  compression s ∈ [None; Some ""; Some "gz"; Some "bz2"; Some "xz"] ->
  WRITE_CODECS !! compression s = Some k ->
  k <> SnappyStream /\ stored k f v = Pickled v.
Proof.
  intros Hc Hk.
  assert (k <> SnappyStream) as Hns.
  { repeat (apply elem_of_cons in Hc as [Hc|Hc]);
      try (apply elem_of_nil in Hc; contradiction);
      rewrite Hc in Hk; vm_compute in Hk; injection Hk as <-; discriminate. }
  split; [exact Hns|]. destruct k; try reflexivity. contradiction.
Qed.

(** What [import_] does with a path that leads to a regular file whose
    extension selects a one-argument reader. *)
Lemma import_reads (w : world) (p q : string) (k : stream) :
  strip p = p -> follow MAXSYMLINKS (fs w) p = Some q ->
  is_Some (fs w !! q) ->
  READ_CODECS !! snd (splitext p) = Some (Reader 1 k) ->
  import_ w p
    = (World (fs w) (log w ++ [OpenRead k p]), pickle_load (fs w) k q).
Proof.
  intros Hs Hq [n Hn] Hr. unfold import_. rewrite Hs. unfold os_path_exists.
  rewrite Hq, Hn. cbn [negb]. rewrite Hr. reflexivity.
Qed.

Lemma pickle_load_pickled (m : gmap string node) (k : stream) (q : string)
  (v : nat) :
  m !! q = Some (File k (Pickled v)) -> pickle_load m k q = Ok v.
Proof.
  intros H. unfold pickle_load. rewrite H.
  destruct (decide (k = k)); [reflexivity | contradiction].
Qed.

(** X17.  Export, then import.  For every compression except ["snappy"]
    (none, gz, bz2, xz) and every protocol number: when the open and the
    dump succeed, the snapshot and the alias are two different names in
    one resolved directory, and the path of the snapshot has no
    surrounding whitespace, [export] returns and [import_] of [file_name]
    returns the workflow that was exported, whatever happens to the
    alias. *)
Theorem export_import_roundtrip (s : Snapshotter) (w : world) (f : faults) :
  compression s ∈ [None; Some ""; Some "gz"; Some "bz2"; Some "xz"] ->
  open_fails f = false -> dump_fails f = false ->
  separate ver s (fs w) ->
  strip (join (directory s) (rel_file_name ver s))
    = join (directory s) (rel_file_name ver s) ->
  snd (export ver s w f) = Ok tt /\
  snd (import_ (snd (fst (export ver s w f)))
               (file_name (fst (fst (export ver s w f)))))
    = Ok (workflow s).
Proof.
  intros Hc Hopen Hdump Hsep Hstrip.
  destruct (separate_facts ver s (fs w) Hsep) as (Hne & Hfol & _).
  destruct (codec_tables ver s Hc) as (k & key & Hw & Hext & Hr).
  destruct (plain_stream s k f (workflow s) Hc Hw) as [_ Hst].
  set (name := join (directory s) (rel_file_name ver s)) in *.
  pose proof (write_payload_clean (with_file_name s name) w f k Hw Hfol
                Hopen Hdump) as Hwp.
  cbn [file_name with_file_name workflow] in Hwp. rewrite Hst in Hwp.
  rewrite (export_ok_fs s w f) by (fold name; rewrite Hwp; reflexivity).
  fold name. rewrite Hwp. cbn [fst snd file_name with_file_name].
  split; [reflexivity|].
  set (w3 := try_symlink f (try_remove f _ _) _ _).
  assert (fs w3 !! name = Some (File k (Pickled (workflow s)))) as Hfile.
  { unfold w3. rewrite alias_swap_elsewhere by exact Hne. cbn [fs].
    apply lookup_insert_eq. }
  assert (follow MAXSYMLINKS (fs w3) name = Some name) as Hfol3.
  { apply follow_not_link. intros t K. rewrite Hfile in K. discriminate K. }
  rewrite (import_reads w3 name name k Hstrip Hfol3);
    [| rewrite Hfile; eauto | rewrite Hext; exact Hr].
  cbn [snd]. apply pickle_load_pickled. exact Hfile.
Qed.


(** X19.  [export] touches at most two entries of the file system, the
    file it writes and the alias.  When these are two names in one
    resolved directory, every other entry, taken under its resolved
    spelling, keeps what it had, whether the export returns or raises and
    whatever fails. *)
Theorem export_touches_two_paths (s : Snapshotter) (w : world) (f : faults)
  (p : string) :
  separate ver s (fs w) ->
  resolved (fs w) p = true ->
  p <> join (directory s) (rel_file_name ver s) ->
  p <> file_name_link ver s ->
  fs (snd (fst (export ver s w f))) !! p = fs w !! p.
Proof.
  intros Hsep _ Hn Hl.
  destruct (separate_facts ver s (fs w) Hsep) as (_ & Hfol & _).
  set (s1 := with_file_name s (join (directory s) (rel_file_name ver s))).
  pose proof (write_payload_elsewhere s1 w f p Hfol Hn) as Hwp.
  destruct (snd (write_payload s1 w f)) as [[]|e] eqn:Hres.
  - rewrite (export_ok_fs s w f Hres). cbn [fst snd].
    rewrite alias_swap_elsewhere by exact Hl. exact Hwp.
  - rewrite (export_raise_fs s w f e Hres). cbn [fst snd]. exact Hwp.
Qed.


(** X22.  Import through the alias.  For every compression except
    ["snappy"]: after an export in which the open and the dump succeed,
    the old alias, if there is one, is removed and the new link is
    created, the snapshot and the alias being two different names in one
    resolved directory, [import_] of the alias path (without surrounding
    whitespace) returns the workflow just exported. *)
Theorem import_through_alias (s : Snapshotter) (w : world) (f : faults) :
  compression s ∈ [None; Some ""; Some "gz"; Some "bz2"; Some "xz"] ->
  open_fails f = false -> dump_fails f = false ->
  fs w !! file_name_link ver s = None \/ remove_fails f = false ->
  symlink_fails f = false ->
  separate ver s (fs w) ->
  strip (file_name_link ver s) = file_name_link ver s ->
  snd (export ver s w f) = Ok tt /\
  snd (import_ (snd (fst (export ver s w f))) (file_name_link ver s))
    = Ok (workflow s).
Proof.
  intros Hc Hopen Hdump Hrm Hsl Hsep Hstrip.
  destruct (separate_facts ver s (fs w) Hsep) as (Hne & Hfol & Hcan).
  set (name := join (directory s) (rel_file_name ver s)) in *.
  set (link := file_name_link ver s) in *.
  destruct (join_ends (directory s) (link_name ver s)) as (pre & Hpre).
  destruct (codec_tables_at ver s link
              (list_ascii_of_string pre ++ list_ascii_of_string (prefix s)
                 ++ list_ascii_of_string "_current.") Hc)
    as (k & key & Hw & Hext & Hr).
  { unfold link, file_name_link. fold (link_name ver s). rewrite Hpre.
    unfold link_name. rewrite !chars_app, <- !app_assoc. reflexivity. }
  destruct (plain_stream s k f (workflow s) Hc Hw) as [_ Hst].
  assert (join (dirname link) (rel_file_name ver s) = name) as Hres.
  { apply alias_resolves; [exact Hcan | | |].
    - apply (link_name_plain ver s k Hw). apply Hsep.
    - apply link_starts. apply Hsep.
    - apply rel_starts. apply Hsep. }
  pose proof (write_payload_clean (with_file_name s name) w f k Hw Hfol
                Hopen Hdump) as Hwp.
  cbn [file_name with_file_name workflow] in Hwp. rewrite Hst in Hwp.
  rewrite (export_ok_fs s w f) by (fold name; rewrite Hwp; reflexivity).
  fold name. fold link. rewrite Hwp. cbn [fst snd].
  split; [reflexivity|].
  set (w1 := World _ _).
  assert (fs w1 !! link = fs w !! link) as Hl1.
  { unfold w1. cbn [fs]. apply lookup_insert_ne. exact Hne. }
  set (w3 := try_symlink f (try_remove f w1 link) (rel_file_name ver s) link).
  assert (fs w3 !! name = Some (File k (Pickled (workflow s)))) as Hfile.
  { unfold w3. rewrite alias_swap_elsewhere by exact Hne. unfold w1.
    cbn [fs]. apply lookup_insert_eq. }
  assert (fs w3 !! link = Some (Symlink (rel_file_name ver s))) as Hsym.
  { unfold w3.
    apply (alias_swap_cases f w1 (rel_file_name ver s) link);
      [rewrite Hl1; exact Hrm | exact Hsl]. }
  assert (follow MAXSYMLINKS (fs w3) link = Some name) as Hfol3.
  { unfold MAXSYMLINKS. rewrite (follow_link _ _ _ _ Hsym), Hres.
    apply follow_not_link. intros t K. rewrite Hfile in K. discriminate K. }
  rewrite (import_reads w3 link name k Hstrip Hfol3);
    [| rewrite Hfile; eauto | rewrite Hext; exact Hr].
  cbn [snd]. apply pickle_load_pickled. exact Hfile.
Qed.

(** Why a complete snapshot behind the alias needs the proviso on the
    stream: with ["snappy"] and a dump that hands over more than 65536
    bytes in one write, [export] returns, the alias is the link to the
    file just written, and that file does not hold the pickle. *)
Lemma export_snappy_alias_to_garbled (s : Snapshotter) (w : world)
  (f : faults) (P : list Byte.byte) :
  compression s = Some "snappy" ->
  open_fails f = false -> dump_fails f = false ->
  fs w !! file_name_link ver s = None \/ remove_fails f = false ->
  symlink_fails f = false ->
  separate ver s (fs w) ->
  dump_writes f = [P] -> (_CHUNK_MAX < length P)%nat ->
  snd (export ver s w f) = Ok tt /\
  fs (snd (fst (export ver s w f))) !! file_name_link ver s
    = Some (Symlink (rel_file_name ver s)) /\
  fs (snd (fst (export ver s w f))) !! join (directory s) (rel_file_name ver s)
    = Some (File SnappyStream Garbled).
Proof.
  intros Hc Hopen Hdump Hrm Hsl Hsep Hw Hlen.
  destruct (separate_facts ver s (fs w) Hsep) as (Hne & Hfol & _).
  set (name := join (directory s) (rel_file_name ver s)) in *.
  set (link := file_name_link ver s) in *.
  assert (WRITE_CODECS !! compression s = Some SnappyStream) as Hk
    by (rewrite Hc; reflexivity).
  pose proof (write_payload_clean (with_file_name s name) w f SnappyStream
                Hk Hfol Hopen Hdump) as Hwp.
  cbn [file_name with_file_name workflow] in Hwp.
  rewrite (stored_snappy_large f P (workflow s) Hw Hlen) in Hwp.
  rewrite (export_ok_fs s w f) by (fold name; rewrite Hwp; reflexivity).
  fold name. fold link. rewrite Hwp. cbn [fst snd].
  split; [reflexivity|].
  set (w1 := World _ _).
  assert (fs w1 !! link = fs w !! link) as Hl1.
  { unfold w1. cbn [fs]. apply lookup_insert_ne. exact Hne. }
  split.
  - apply (alias_swap_cases f w1 (rel_file_name ver s) link);
      [rewrite Hl1; exact Hrm | exact Hsl].
  - rewrite alias_swap_elsewhere by exact Hne. unfold w1. cbn [fs].
    apply lookup_insert_eq.
Qed.

End AliasSwap.

Section AliasSwapExamples.

Import Path Snap SnapMore.
Local Open Scope string_scope.

Lemma separate_epoch2 : separate 4 epoch2 (fs (after_epoch1 "gz")).
Proof.
  repeat split; try (vm_compute; reflexivity).
  - vm_compute. discriminate.
  - intros t K. vm_compute in K. discriminate K.
Qed.

Lemma separate_first (codec : string) :
  codec = "bz2" \/ codec = "xz" ->
  separate 4 (run_snapshotter "epoch1" codec 7) (fs empty_world).
Proof.
  intros [-> | ->]; repeat split; try (vm_compute; reflexivity);
    try (vm_compute; discriminate);
    intros t K; vm_compute in K; discriminate K.
Qed.



Lemma export_import_roundtrip_witness :
  snd (import_ (snd (fst (export 4 (run_snapshotter "epoch1" "bz2" 7)
                                 empty_world link_fails)))
               "/snap/run_epoch1.4.pickle.bz2") = Ok 7%nat.
Proof.
  refine (proj2 (export_import_roundtrip 4 (run_snapshotter "epoch1" "bz2" 7)
                   empty_world link_fails _ eq_refl eq_refl
                   (separate_first "bz2" (or_introl eq_refl)) _)).
  - cbn. rewrite !elem_of_cons. auto 6.
  - vm_compute. reflexivity.
Defined.


Lemma export_touches_two_paths_witness :
  resolved (fs (after_epoch1 "gz")) "/snap/run_epoch1.4.pickle.gz" = true /\
  fs (snd (fst (export 4 epoch2 (after_epoch1 "gz") dump_breaks)))
    !! "/snap/run_epoch1.4.pickle.gz"
  = fs (after_epoch1 "gz") !! "/snap/run_epoch1.4.pickle.gz".
Proof.
  split; [vm_compute; reflexivity|].
  apply (export_touches_two_paths 4 epoch2 (after_epoch1 "gz") dump_breaks
           "/snap/run_epoch1.4.pickle.gz" separate_epoch2).
  - vm_compute. reflexivity.
  - vm_compute. discriminate.
  - vm_compute. discriminate.
Defined.

(** A dump that fails with [KeyError] after the file was opened: the same
    class of error as for an unknown codec, but the open is on record and
    the file is there, truncated. *)
Lemma export_hook_key_error :
  export 4 epoch2 empty_world hook_breaks
    = (with_file_name epoch2 "/snap/run_epoch2.4.pickle.gz",
       World (<["/snap/run_epoch2.4.pickle.gz" := File GzipFile Truncated]> ∅)
             [OpenWrite GzipFile "/snap/run_epoch2.4.pickle.gz"],
       Raise (KeyError None)).
Proof. vm_compute. reflexivity. Qed.


Lemma import_through_alias_witness :
  snd (import_ (snd (fst (export 4 (run_snapshotter "epoch1" "xz" 7)
                                 empty_world no_faults)))
               "/snap/run_current.4.pickle.xz") = Ok 7%nat.
Proof.
  refine (proj2 (import_through_alias 4 (run_snapshotter "epoch1" "xz" 7)
                   empty_world no_faults _ eq_refl eq_refl
                   (or_intror eq_refl) eq_refl
                   (separate_first "xz" (or_intror eq_refl)) _)).
  - cbn. rewrite !elem_of_cons. auto 6.
  - vm_compute. reflexivity.
Defined.

End AliasSwapExamples.
